(** * Escape-analysis examples: a shallow embedding of the Go sources

    The repository is a flat set of leaf functions ([functions.go] and
    [keep_on_stack.go]) with their benchmarks.  The functions are embedded
    here over a small model of the parts of the Go runtime they touch:
    64-bit [int], run-time panics, slices over shared backing arrays,
    pointers into a store, buffered channels and [sync.Pool]. *)

From Stdlib Require Import ZArith List Lia Strings.Byte String.
From stdpp Require Import base option list gmap.

Local Open Scope Z_scope.

(** ** The Go runtime, as far as the examples use it *)

Module Go.

(** Run-time panics raised by the operations below. *)
Inductive panic : Set :=
| NilDereference          (* invalid memory address or nil pointer dereference *)
| IndexOutOfRange         (* index out of range [i] with length n *)
| SliceBoundsOutOfRange   (* slice bounds out of range [:hi] with capacity c *)
| MakesliceLenOutOfRange  (* makeslice: len out of range *)
| MakesliceCapOutOfRange  (* makeslice: cap out of range *)
| SendOnClosedChannel.    (* send on closed channel *)

(** A call either returns normally or panics. *)
Inductive result (A : Type) : Type :=
| Ret (a : A)
| Panic (p : panic).
Arguments Ret {A} a.
Arguments Panic {A} p.

Definition bind {A B : Type} (m : result A) (k : A -> result B) : result B :=
  match m with
  | Ret a => k a
  | Panic p => Panic p
  end.

(** [int] is 64 bits wide (the benchmarks' reference platform); arithmetic
    wraps around. *)
Definition wrap64 (z : Z) : Z := (z + 2 ^ 63) mod 2 ^ 64 - 2 ^ 63.
Definition mul64 (a b : Z) : Z := wrap64 (a * b).

(** [runtime.maxAlloc] on a 64-bit platform: [makeslice] panics when the
    requested block is larger. *)
Definition maxAlloc : Z := 2 ^ 48.

(** A pointer is nil or a location of the store of its type. *)
Abbreviation ptr := (option nat).

(** A slice header: backing array, offset of element 0 in it, length and
    capacity.  The nil slice has length and capacity 0. *)
Record slice : Set := Slice {
  s_arr : nat;
  s_off : nat;
  s_len : nat;
  s_cap : nat
}.

Definition nil_slice : slice := Slice 0 0 0 0.

(** [s[:hi]]: keeps array and capacity, panics unless [0 <= hi <= cap(s)]. *)
Definition reslice_to (s : slice) (hi : Z) : result slice :=
  if (0 <=? hi) && (hi <=? Z.of_nat (s_cap s))
  then Ret (Slice (s_arr s) (s_off s) (Z.to_nat hi) (s_cap s))
  else Panic SliceBoundsOutOfRange.

(** [vs] written over [arr] from position [pos] on (memmove). *)
Definition list_write {A : Type} (arr : list A) (pos : nat) (vs : list A) : list A :=
  take pos arr ++ vs ++ drop (pos + length vs) arr.

(** The backing arrays allocated so far; an array's length is the capacity
    it was allocated with. *)
Abbreviation heap A := (list (list A)).

Section Slices.
Context {A : Type}.
(** The zero value and the size in bytes of the element type. *)
Variable zero : A.
Variable esize : Z.
(** How much room beyond the needed length [append] adds when it has to
    move to a new array: the language only promises a sufficiently large
    one, and the amount is the runtime's choice. *)
Variable slack : nat -> nat -> nat.

Definition array_of (h : heap A) (a : nat) : list A := default [] (h !! a).

(** The elements seen through a slice. *)
Definition slice_read (h : heap A) (s : slice) : list A :=
  take (s_len s) (drop (s_off s) (array_of h (s_arr s))).

(** [s[i]] *)
Definition slice_get (h : heap A) (s : slice) (i : nat) : result A :=
  if (i <? s_len s)%nat then
    match array_of h (s_arr s) !! (s_off s + i)%nat with
    | Some v => Ret v
    | None => Panic NilDereference
    end
  else Panic IndexOutOfRange.

(** [s[i] = v] *)
Definition slice_set (h : heap A) (s : slice) (i : nat) (v : A) : result (heap A) :=
  if (i <? s_len s)%nat then
    Ret (<[s_arr s := <[(s_off s + i)%nat := v]> (array_of h (s_arr s))]> h)
  else Panic IndexOutOfRange.

(** [make([]T, len, cap)], after [runtime.makeslice]. *)
Definition make_slice (h : heap A) (len cap : Z) : result (heap A * slice) :=
  if (len <? 0) || (maxAlloc <? esize * len) then Panic MakesliceLenOutOfRange
  else if (cap <? len) || (maxAlloc <? esize * cap) then Panic MakesliceCapOutOfRange
  else Ret (h ++ [replicate (Z.to_nat cap) zero],
            Slice (length h) 0 (Z.to_nat len) (Z.to_nat cap)).

(** [append(s, vs...)]: in place when the capacity suffices, otherwise
    into a new, larger array; the values appended are read before
    anything is written. *)
Definition append (h : heap A) (s : slice) (vs : list A) : heap A * slice :=
  let n := (s_len s + length vs)%nat in
  if (n <=? s_cap s)%nat then
    (<[s_arr s := list_write (array_of h (s_arr s)) (s_off s + s_len s) vs]> h,
     Slice (s_arr s) (s_off s) n (s_cap s))
  else
    let c := (n + slack (s_cap s) n)%nat in
    (h ++ [slice_read h s ++ vs ++ replicate (c - n) zero],
     Slice (length h) 0 n c).

(** A slice header that points into the heap: what every slice value of
    a running program satisfies. *)
Definition slice_valid (h : heap A) (s : slice) : Prop :=
  (s_len s <= s_cap s)%nat /\
  (s_off s + s_cap s <= length (array_of h (s_arr s)))%nat.

(** Every array of [h] is still there in [h'], at least as long: slice
    headers valid in [h] stay valid in [h']. *)
Definition heap_extends (h h' : heap A) : Prop :=
  forall a, (length (array_of h a) <= length (array_of h' a))%nat.
End Slices.

(** [for i := range s { body }] and [for i := lo; i < lo+n; i++ { body }]:
    [n] iterations with the index counting up from [i]. *)
Fixpoint for_range {St : Type} (body : St -> nat -> result St) (i n : nat) (st : St)
  : result St :=
  match n with
  | O => Ret st
  | S n' => bind (body st i) (for_range body (S i) n')
  end.

#[global] Instance result_bind : MBind result := fun A B k m => bind m k.

(** Whether an operation on a channel goes through or parks the goroutine. *)
Inductive progress (A : Type) : Type :=
| Completes (a : A)
| Blocks.
Arguments Completes {A} a.
Arguments Blocks {A}.

(** A channel of ints ([runtime.hchan]): the buffer with its size, the
    number of receivers parked on it and the closed flag. *)
Record hchan : Set := Hchan {
  dataqsiz : nat;
  buf : list Z;
  recvq : nat;
  closed : bool
}.

(** [ch <- x], after [runtime.chansend]: a nil channel parks the sender for
    ever, a closed one panics, a parked receiver takes the value directly,
    a buffer with room stores it, and otherwise the sender parks. *)
Definition chansend (ch : option hchan) (x : Z) : result (progress hchan) :=
  match ch with
  | None => Ret Blocks
  | Some c =>
      if closed c then Panic SendOnClosedChannel
      else if (0 <? recvq c)%nat then
        Ret (Completes (Hchan (dataqsiz c) (buf c) (recvq c - 1) (closed c)))
      else if (length (buf c) <? dataqsiz c)%nat then
        Ret (Completes (Hchan (dataqsiz c) (buf c ++ [x]) (recvq c) (closed c)))
      else Ret Blocks
  end.

(** [<-ch] in a goroutine with no sender parked, after [runtime.chanrecv]. *)
Definition chanrecv (ch : option hchan) : progress (hchan * Z) :=
  match ch with
  | None => Blocks
  | Some c =>
      match buf c with
      | x :: rest => Completes (Hchan (dataqsiz c) rest (recvq c) (closed c), x)
      | [] => if closed c then Completes (c, 0) else Blocks
      end
  end.

Definition add64 (a b : Z) : Z := wrap64 (a + b).

(** [a[i]] and [a[i] = v] on an array value: outside the array they panic. *)
Definition array_get {A : Type} (a : list A) (i : nat) : result A :=
  match a !! i with
  | Some v => Ret v
  | None => Panic IndexOutOfRange
  end.

Definition array_set {A : Type} (a : list A) (i : nat) (v : A) : result (list A) :=
  if (i <? length a)%nat then Ret (<[i := v]> a) else Panic IndexOutOfRange.

(** [copy(dst, src)]: the first [min(len(dst), len(src))] elements of [src]
    go to the front of [dst] (memmove); the count is returned. *)
Definition slice_copy {A : Type} (h : heap A) (dst src : slice) : heap A * nat :=
  let n := Nat.min (s_len dst) (s_len src) in
  (<[s_arr dst := list_write (array_of h (s_arr dst)) (s_off dst)
                    (take n (slice_read h src))]> h,
   n).

(** [h'] is [h] with the contents of array [a] replaced, its length kept:
    no array was added and no other array was written. *)
Definition array_rewritten {A : Type} (a : nat) (h h' : heap A) : Prop :=
  exists X, h' = <[a := X]> h /\ length X = length (array_of h a).

End Go.

(** ** functions.go: the examples that escape to the heap *)

Module Functions.
Import Go.

(** The int variables whose address has been taken. *)
Abbreviation int_store := (list Z).

Definition load_int (st : int_store) (p : ptr) : result Z :=
  match p with
  | Some l => match st !! l with Some v => Ret v | None => Panic NilDereference end
  | None => Panic NilDereference
  end.

Definition store_int (st : int_store) (p : ptr) (v : Z) : result int_store :=
  match p with
  | Some l => if (l <? length st)%nat then Ret (<[l := v]> st) else Panic NilDereference
  | None => Panic NilDereference
  end.

(** Case 1: [x := 42; return &x] *)
Definition returnPointer (st : int_store) : int_store * ptr :=
  (st ++ [42], Some (length st)).

(** Case 2: [x := 42; return x] *)
Definition returnValue : Z := 42.

(** Case 3: [type LargeStruct struct { data [3000]int }] *)
Record LargeStruct : Set := { data : list Z }.

(** [LargeStruct{}] *)
Definition LargeStruct_zero : LargeStruct := {| data := replicate 3000 0 |}.

(** Case 5: [s := make([]int, size); return s] *)
Definition createSlice (h : heap Z) (size : Z) : result (heap Z * slice) :=
  make_slice 0 8 h size size.

(** Case 7: [x := 42; ch <- x] *)
Definition sendToChannel (ch : option hchan) : result (progress hchan) :=
  let x := 42 in
  chansend ch x.

(** Case 9: [*result = 42] *)
Definition setValueViaPointer (st : int_store) (result : ptr) : Go.result int_store :=
  store_int st result 42.

(** The state [initSliceViaPointer] works on: the int arrays and the
    variables of type [[]int] whose address has been taken. *)
Record slice_state : Type := {
  arrays : heap Z;
  slice_vars : list slice
}.

Definition load_slice (st : slice_state) (p : ptr) : result slice :=
  match p with
  | Some l => match slice_vars st !! l with Some s => Ret s | None => Panic NilDereference end
  | None => Panic NilDereference
  end.

Definition store_slice (st : slice_state) (p : ptr) (s : slice) : result slice_state :=
  match p with
  | Some l =>
      if (l <? length (slice_vars st))%nat
      then Ret {| arrays := arrays st; slice_vars := <[l := s]> (slice_vars st) |}
      else Panic NilDereference
  | None => Panic NilDereference
  end.

(** Case 11, with [r] standing for the slice [result] points to:
    [if cap(r) >= size { r = r[:size] } else { r = make([]int, size) }]
    and then [for i := range r { r[i] = i }]. *)
Definition initSliceViaPointer (st : slice_state) (result : ptr) (size : Z)
  : Go.result slice_state :=
  r ← load_slice st result;
  st1 ← (if Z.of_nat (s_cap r) >=? size then
           s ← reslice_to r size;
           store_slice st result s
         else
           '(h, s) ← make_slice 0 8 (arrays st) size size;
           store_slice {| arrays := h; slice_vars := slice_vars st |} result s);
  r1 ← load_slice st1 result;
  for_range
    (fun st i =>
       r ← load_slice st result;
       h ← slice_set (arrays st) r i (Z.of_nat i);
       Ret {| arrays := h; slice_vars := slice_vars st |})
    0 (s_len r1) st1.

(** [BenchmarkSendToChannel]'s loop body: [sendToChannel(ch); <-ch]. *)
Definition bench_send_recv (ch : option hchan) : result (progress (option hchan)) :=
  sent ← sendToChannel ch;
  match sent with
  | Completes c =>
      match chanrecv (Some c) with
      | Completes (c', _) => Ret (Completes (Some c'))
      | Blocks => Ret Blocks
      end
  | Blocks => Ret Blocks
  end.

(** Case 3: [s := LargeStruct{}; return &s], over the [LargeStruct] objects
    on the heap, and [s := LargeStruct{}; return s]. *)
Definition returnLargePointer (objs : list LargeStruct) : list LargeStruct * ptr :=
  (objs ++ [LargeStruct_zero], Some (length objs)).

Definition returnLargeValue : LargeStruct := LargeStruct_zero.

(** The state [assignToMap] works on: the int variables whose address has
    been taken and the maps of type [map[string]*int]; a map value is a
    pointer to one of them or nil. *)
Record map_state : Type := {
  cells : int_store;
  maps : list (gmap string ptr)
}.

(** An assignment to a map entry goes through or panics with "assignment to
    entry in nil map". *)
Inductive map_assign (A : Type) : Type :=
| Assigned (a : A)
| NilMapPanic.
Arguments Assigned {A} a.
Arguments NilMapPanic {A}.

(** Case 8: [x := 42; m["key"] = &x].  The variable [x] lives in a cell of
    its own; a location outside the store stands for no map. *)
Definition assignToMap (st : map_state) (m : ptr) : map_assign map_state :=
  let x := Some (length (cells st)) in
  match m with
  | Some l =>
      match maps st !! l with
      | Some mp =>
          Assigned {| cells := cells st ++ [42];
                      maps := <[l := <["key"%string := x]> mp]> (maps st) |}
      | None => NilMapPanic
      end
  | None => NilMapPanic
  end.

(** Case 10: [for i := range result.data { result.data[i] = i }].  The
    array has 3000 elements whatever [result] is, so the loop runs 3000
    times and the first assignment dereferences [result]. *)
Definition setLargeStructViaPointer (objs : list LargeStruct) (result : ptr)
  : Go.result (list LargeStruct) :=
  for_range
    (fun objs i =>
       match result with
       | Some l =>
           match objs !! l with
           | Some s => Ret (<[l := {| data := <[i := Z.of_nat i]> (data s) |}]> objs)
           | None => Panic NilDereference
           end
       | None => Panic NilDereference
       end)
    0 3000 objs.

(** [BenchmarkSendToChannel]: [ch := make(chan int, 1)] and then [n] rounds
    of [sendToChannel(ch); <-ch]; a goroutine that blocked stays blocked. *)
Definition BenchmarkSendToChannel_from (n : nat) (ch : option hchan)
  : result (progress (option hchan)) :=
  for_range
    (fun st _ =>
       match st with
       | Completes ch => bench_send_recv ch
       | Blocks => Ret Blocks
       end)
    0 n (Completes ch).

Definition BenchmarkSendToChannel (n : nat) : result (progress (option hchan)) :=
  BenchmarkSendToChannel_from n (Some (Hchan 1 [] 0 false)).


(** [BenchmarkAssignToMap]'s loop: [n] calls [assignToMap(m)] on the same
    map. *)
Fixpoint BenchmarkAssignToMap_loop (n : nat) (st : map_state) (m : ptr)
  : map_assign map_state :=
  match n with
  | O => Assigned st
  | S n' =>
      match assignToMap st m with
      | Assigned st' => BenchmarkAssignToMap_loop n' st' m
      | NilMapPanic => NilMapPanic
      end
  end.

End Functions.

(** ** keep_on_stack.go: the stack-friendly versions and their heap counterparts *)

Module KeepOnStack.
Import Go Functions.

(** *** 8. [sync.Pool] of [LargeStruct] *)

(** The [LargeStruct] objects on the heap and the pointers [Put] into
    [largeStructPool] and not taken out again. *)
Record pool_state : Set := {
  objects : list LargeStruct;
  pooled : list ptr
}.

(** [New: func() interface{} { return &LargeStruct{} }] *)
Definition largeStructPool_New (st : pool_state) : pool_state * ptr :=
  ({| objects := objects st ++ [LargeStruct_zero]; pooled := pooled st |},
   Some (length (objects st))).

(** [largeStructPool.Get()]: an arbitrary pooled item, [pick] saying which,
    is removed and returned; with no pick (the pool is empty or chooses to
    be treated so) the result of [New]. *)
Definition largeStructPool_Get (pick : option nat) (st : pool_state) : pool_state * ptr :=
  match pick with
  | Some i =>
      match pooled st !! i with
      | Some p => ({| objects := objects st; pooled := delete i (pooled st) |}, p)
      | None => largeStructPool_New st
      end
  | None => largeStructPool_New st
  end.

(** [largeStructPool.Put(x)]: the pool may keep the item or drop it. *)
Definition largeStructPool_Put (keep : bool) (st : pool_state) (x : ptr) : pool_state :=
  if keep then {| objects := objects st; pooled := x :: pooled st |} else st.

(** [obj := largeStructPool.Get().( *LargeStruct ); *obj = LargeStruct{}; return obj] *)
Definition useSyncPool (pick : option nat) (st : pool_state) : result (pool_state * ptr) :=
  let '(st1, obj) := largeStructPool_Get pick st in
  match obj with
  | Some l =>
      if (l <? length (objects st1))%nat
      then Ret ({| objects := <[l := LargeStruct_zero]> (objects st1);
                   pooled := pooled st1 |}, obj)
      else Panic NilDereference
  | None => Panic NilDereference
  end.

Definition returnToPool (keep : bool) (st : pool_state) (obj : ptr) : pool_state :=
  largeStructPool_Put keep st obj.

(** Every pooled pointer points to a [LargeStruct] object: the pool holds
    what [returnToPool] was given, and callers give it objects. *)
Definition pool_ok (st : pool_state) : bool :=
  forallb
    (fun p : ptr =>
       match p with
       | Some l => (l <? length (objects st))%nat
       | None => false
       end)
    (pooled st).

(** [obj.data], read through the pointer. *)
Definition load_data (st : pool_state) (p : ptr) : option (list Z) :=
  l ← p; data <$> objects st !! l.

(** *** 10. [BufferProcessor] *)

Record BufferProcessor : Set := { buffer : slice }.

(** The byte arrays and the [BufferProcessor] objects on the heap. *)
Record bp_state : Type := {
  bytes : heap byte;
  procs : list BufferProcessor
}.

(** [b ^ 0xFF] on a byte. *)
Definition byte_xor (a b : byte) : byte :=
  default x00 (Byte.of_N (N.lxor (Byte.to_N a) (Byte.to_N b))).

(** [bp] points to a processor whose buffer is a valid slice. *)
Definition bp_valid (st : bp_state) (bp : ptr) : Prop :=
  match bp with
  | Some l =>
      match procs st !! l with
      | Some p => slice_valid (bytes st) (buffer p)
      | None => False
      end
  | None => False
  end.

(** [return &BufferProcessor{buffer: make([]byte, 0, 1024)}] *)
Definition NewBufferProcessor (st : bp_state) : result (bp_state * ptr) :=
  '(h, b) ← make_slice x00 1 (bytes st) 0 1024;
  Ret ({| bytes := h; procs := procs st ++ [{| buffer := b |}] |},
       Some (length (procs st))).

Definition load_buffer (st : bp_state) (bp : ptr) : result slice :=
  match bp with
  | Some l => match procs st !! l with Some p => Ret (buffer p) | None => Panic NilDereference end
  | None => Panic NilDereference
  end.

Definition store_buffer (st : bp_state) (bp : ptr) (b : slice) : result bp_state :=
  match bp with
  | Some l =>
      if (l <? length (procs st))%nat
      then Ret {| bytes := bytes st; procs := <[l := {| buffer := b |}]> (procs st) |}
      else Panic NilDereference
  | None => Panic NilDereference
  end.

Section WithSlack.
(** See [Go.append]. *)
Variable slack : nat -> nat -> nat.

(** [bp.buffer = bp.buffer[:0]; bp.buffer = append(bp.buffer, data...)],
    then [for i := range bp.buffer { bp.buffer[i] = bp.buffer[i] ^ 0xFF }]
    and [return bp.buffer]. *)
Definition ProcessData (st : bp_state) (bp : ptr) (data : slice)
  : result (bp_state * slice) :=
  b ← load_buffer st bp;
  b0 ← reslice_to b 0;
  st0 ← store_buffer st bp b0;
  b0' ← load_buffer st0 bp;
  let '(h, b1) := append x00 slack (bytes st0) b0' (slice_read (bytes st0) data) in
  st1 ← store_buffer {| bytes := h; procs := procs st0 |} bp b1;
  b1' ← load_buffer st1 bp;
  st2 ← for_range
          (fun st i =>
             b ← load_buffer st bp;
             v ← slice_get (bytes st) b i;
             h ← slice_set (bytes st) b i (byte_xor v xff);
             Ret {| bytes := h; procs := procs st |})
          0 (s_len b1') st1;
  b2 ← load_buffer st2 bp;
  Ret (st2, b2).

(** The specification's reading of "used only within the scope of a
    single call": what a caller sees through the result of one call is
    the same after the next call on the same processor. *)
Definition buffer_used_within_one_call : Prop :=
  forall (st : bp_state) (bp : ptr) (d1 d2 : slice) st1 r1 st2 r2,
    ProcessData st bp d1 = Ret (st1, r1) ->
    ProcessData st1 bp d2 = Ret (st2, r2) ->
    slice_read (bytes st2) r1 = slice_read (bytes st1) r1.

(** *** 12. [preallocatedSlice] and its counterpart [sliceGrowth] *)

(** [result := make([]int, 0, 100)], then
    [for i := 0; i < 100; i++ { result = append(result, i*i) }]. *)
Definition preallocatedSlice (h : heap Z) : result (heap Z * slice) :=
  r0 ← make_slice 0 8 h 0 100;
  for_range
    (fun '(h, result) i =>
       Ret (append 0 slack h result [mul64 (Z.of_nat i) (Z.of_nat i)]))
    0 100 r0.

(** [slice := []int{}], then
    [for i := 0; i < 100; i++ { slice = append(slice, i*i) }]. *)
Definition sliceGrowth (h : heap Z) : result (heap Z * slice) :=
  for_range
    (fun '(h, slice) i =>
       Ret (append 0 slack h slice [mul64 (Z.of_nat i) (Z.of_nat i)]))
    0 100 (h, nil_slice).
End WithSlack.

(** The state of [BenchmarkBufferProcessor] once [NewBufferProcessor] has
    returned, with three bytes of input in an array of their own, and a
    second state in which the processor's buffer is two bytes that an
    earlier call left behind. *)
Definition fresh_processor : bp_state :=
  {| bytes := [[x01; x02; x03]; replicate 1024 x00];
     procs := [{| buffer := Slice 1 0 0 1024 |}] |}.

Definition used_processor : bp_state :=
  {| bytes := [[xaa; xbb]; [x09; x01; x02; x03]];
     procs := [{| buffer := Slice 0 0 2 2 |}] |}.

(** *** 15. [useArrayInsteadOfMap] and its counterpart [mapLookup] *)

(** [a[i]] on an array: panics outside [0 <= i < len(a)]. *)
Definition array_index {A : Type} (a : list A) (i : Z) : result A :=
  if (0 <=? i) && (i <? Z.of_nat (length a)) then
    match a !! Z.to_nat i with Some v => Ret v | None => Panic IndexOutOfRange end
  else Panic IndexOutOfRange.

Definition useArrayInsteadOfMap (key : Z) : result string :=
  let values := ["zero"; "one"; "two"; "three"]%string in
  if (key >=? 0) && (key <? Z.of_nat (length values)) then
    array_index values key
  else Ret "unknown"%string.

Definition mapLookup (key : Z) : string :=
  let m : gmap Z string :=
    {[ 0 := "zero"; 1 := "one"; 2 := "two"; 3 := "three" ]}%string in
  match m !! key with
  | Some val => val
  | None => "unknown"%string
  end.

(** The table of the specification: "zero", "one", "two", "three" for the
    keys 0 to 3 and "unknown" for every other key. *)
Definition lookup_spec (key : Z) : string :=
  match key with
  | 0 => "zero"
  | 1 => "one"
  | 2 => "two"
  | 3 => "three"
  | _ => "unknown"
  end%string.

(** [x := 42; return &x] *)
Definition returnLocalPointer (st : int_store) : int_store * ptr :=
  (st ++ [42], Some (length st)).

(** *** 2., 3., 7., 9. and 13.: the pure examples and [copy] *)

(** 2. [for i := range data { data[i] *= 2 }; return data] on a [[100]int]
    passed by value. *)
Definition processValueSemantics (data : list Z) : result (list Z) :=
  for_range
    (fun data i =>
       v ← array_get data i;
       array_set data i (mul64 v 2))
    0 100 data.

(** 3. [return x * 2] *)
Definition specificTypeProcessing (x : Z) : Z := mul64 x 2.


(** 7. [sum := 0; for _, v := range data { sum += v }; return sum] *)
Definition directValueAccess (data : list Z) : Z :=
  foldl (fun sum v => add64 sum v) 0 data.

(** 13. [dst := make([]int, len(src)); copy(dst, src); return dst] *)
Definition copyInsteadOfNew (h : heap Z) (src : slice) : result (heap Z * slice) :=
  '(h1, dst) ← make_slice 0 8 h (Z.of_nat (s_len src)) (Z.of_nat (s_len src));
  let '(h2, _) := slice_copy h1 dst src in
  Ret (h2, dst).

(** [BenchmarkBufferProcessor]'s loop: [var r []byte] and then [n] times
    [r = bp.ProcessData(data)]. *)
Definition BenchmarkBufferProcessor_loop (slack : nat -> nat -> nat)
    (n : nat) (st : bp_state) (bp : ptr) (data : slice) : result (bp_state * slice) :=
  for_range (fun '(st, _) _ => ProcessData slack st bp data) 0 n (st, nil_slice).

(** [BenchmarkUseSyncPool]'s loop: [n] rounds of
    [obj := useSyncPool(); returnToPool(obj)], round [i] with the pool's
    choices [picks i] and [keeps i]. *)
Definition BenchmarkUseSyncPool_loop (picks : nat -> option nat) (keeps : nat -> bool)
    (n : nat) (st : pool_state) : result pool_state :=
  for_range
    (fun st i =>
       '(st1, obj) ← useSyncPool (picks i) st;
       Ret (returnToPool (keeps i) st1 obj))
    0 n st.

(** Two pool states to run the examples on: no object at all, and a pool
    holding an object that was handed back with 7 in every element. *)
Definition empty_pool : pool_state := {| objects := []; pooled := [] |}.

Definition stale_pool : pool_state :=
  {| objects := [{| data := replicate 3000 7 |}; LargeStruct_zero];
     pooled := [Some 0%nat] |}.

End KeepOnStack.

(** ** Facts about the runtime model *)

Module GoFacts.
Import Go.

Lemma bind_Ret {A B : Type} (a : A) (k : A -> result B) : Ret a ≫= k = k a.
Proof. reflexivity. Qed.

(** The rule for counted loops: an invariant kept by every iteration holds
    at the end, and the loop returns. *)
Lemma for_range_inv {St : Type} (body : St -> nat -> result St)
    (Inv : nat -> St -> Prop) (k i : nat) (st : St) :
  (forall j s, (i <= j < i + k)%nat -> Inv j s ->
               exists s', body s j = Ret s' /\ Inv (S j) s') ->
  Inv i st ->
  exists st', for_range body i k st = Ret st' /\ Inv (i + k)%nat st'.
Proof.
  revert i st. induction k as [|k IH]; intros i st Hstep Hinv.
  - exists st. rewrite Nat.add_0_r. done.
  - destruct (Hstep i st) as (s' & Hb & Hs'); [lia | done |].
    destruct (IH (S i) s') as (st' & Hl & Hst'); [| done |].
    + intros j s Hj. apply Hstep. lia.
    + exists st'. cbn [for_range]. rewrite Hb. cbn [bind].
      replace (i + S k)%nat with (S i + k)%nat by lia. done.
Qed.

(** Writing position [j] of a list whose first [j] elements are already
    final. *)
Lemma insert_after_prefix {A : Type} (p l : list A) (j : nat) (x : A) :
  length p = j -> (j < length l)%nat ->
  <[j := x]> (p ++ drop j l) = (p ++ [x]) ++ drop (S j) l.
Proof.
  intros Hp Hj.
  destruct (lookup_lt_is_Some_2 l j Hj) as [y Hy].
  rewrite (drop_S l y j Hy).
  rewrite insert_app_r_alt by lia.
  replace (j - length p)%nat with 0%nat by lia.
  cbn. by rewrite <- app_assoc.
Qed.

Section SliceFacts.
Context {A : Type}.
Variable zero : A.
Variable esize : Z.
Variable slack : nat -> nat -> nat.
Implicit Types (h : heap A) (s : slice) (vs : list A).

Lemma heap_extends_refl h : heap_extends h h.
Proof. intros a. lia. Qed.

Lemma heap_extends_trans h1 h2 h3 :
  heap_extends h1 h2 -> heap_extends h2 h3 -> heap_extends h1 h3.
Proof. intros H12 H23 a. specialize (H12 a). specialize (H23 a). lia. Qed.

Lemma slice_valid_extends h h' s :
  heap_extends h h' -> slice_valid h s -> slice_valid h' s.
Proof. intros He [Hl Hc]. split; [done|]. specialize (He (s_arr s)). lia. Qed.

Lemma array_of_insert h a (X : list A) :
  array_of (<[a := X]> h) a = if decide (a < length h)%nat then X else [].
Proof.
  unfold array_of. case_decide as Ha.
  - by rewrite list_lookup_insert_eq.
  - rewrite list_insert_ge by lia. by rewrite lookup_ge_None_2 by lia.
Qed.

Lemma array_of_insert_ne h a b (X : list A) :
  a <> b -> array_of (<[a := X]> h) b = array_of h b.
Proof. intros Hab. unfold array_of. by rewrite list_lookup_insert_ne. Qed.

Lemma array_of_ge h a : (length h <= a)%nat -> array_of h a = [].
Proof. intros Ha. unfold array_of. by rewrite lookup_ge_None_2. Qed.

Lemma array_of_app_new h (X : list A) : array_of (h ++ [X]) (length h) = X.
Proof. unfold array_of. by rewrite list_lookup_middle. Qed.

Lemma heap_extends_app h (X : list A) : heap_extends h (h ++ [X]).
Proof.
  intros a. destruct (decide (a < length h)%nat) as [Ha|Ha].
  - unfold array_of. by rewrite lookup_app_l.
  - rewrite (array_of_ge h a) by lia. cbn. lia.
Qed.

(** Replacing an array by one of the same length (or an array that is
    not there at all) keeps the shape of the heap. *)
Lemma heap_extends_insert h a (X : list A) :
  length X = length (array_of h a) -> heap_extends h (<[a := X]> h).
Proof.
  intros HX b. destruct (decide (a = b)) as [<-|Hab].
  - rewrite array_of_insert. case_decide as Ha; [lia|].
    rewrite array_of_ge by lia. cbn. lia.
  - rewrite array_of_insert_ne by done. lia.
Qed.

Lemma array_of_insert_same_length h a (X : list A) :
  length X = length (array_of h a) -> array_of (<[a := X]> h) a = X.
Proof.
  intros HX. rewrite array_of_insert. case_decide as Ha; [done|].
  rewrite array_of_ge in HX by lia. by destruct X.
Qed.

Lemma length_slice_read h s : slice_valid h s -> length (slice_read h s) = s_len s.
Proof.
  intros [Hl Hc]. unfold slice_read.
  rewrite length_take, length_drop. lia.
Qed.

Lemma slice_get_read h s i v :
  slice_read h s !! i = Some v -> slice_get h s i = Ret v.
Proof.
  unfold slice_read, slice_get. intros Hi.
  apply lookup_take_Some in Hi as [Hi Hlt].
  rewrite lookup_drop in Hi.
  destruct (Nat.ltb_spec i (s_len s)); [|lia]. by rewrite Hi.
Qed.

Lemma slice_set_read h s i v :
  slice_valid h s -> (i < s_len s)%nat ->
  exists h', slice_set h s i v = Ret h' /\
             slice_read h' s = <[i := v]> (slice_read h s) /\
             heap_extends h h'.
Proof.
  intros [Hl Hc] Hi. unfold slice_set.
  destruct (Nat.ltb_spec i (s_len s)); [|lia].
  eexists. split; [done|].
  assert (Hlen : length (<[(s_off s + i)%nat := v]> (array_of h (s_arr s)))
                 = length (array_of h (s_arr s))) by apply length_insert.
  split.
  - unfold slice_read. rewrite (array_of_insert_same_length _ _ _ Hlen).
    rewrite drop_insert_ge by lia.
    replace (s_off s + i - s_off s)%nat with i by lia.
    by rewrite take_insert_lt.
  - by apply heap_extends_insert.
Qed.

Lemma make_slice_Ret h (len cap : Z) :
  0 <= len <= cap -> esize * cap <= maxAlloc -> 0 <= esize ->
  make_slice zero esize h len cap =
    Ret (h ++ [replicate (Z.to_nat cap) zero],
         Slice (length h) 0 (Z.to_nat len) (Z.to_nat cap)).
Proof.
  intros Hl Hc He. unfold make_slice.
  assert (esize * len <= esize * cap) by nia.
  destruct (Z.ltb_spec len 0); [lia|].
  destruct (Z.ltb_spec maxAlloc (esize * len)); [lia|].
  destruct (Z.ltb_spec cap len); [lia|].
  destruct (Z.ltb_spec maxAlloc (esize * cap)); [lia|].
  done.
Qed.

Lemma make_slice_negative h (len cap : Z) :
  len < 0 -> make_slice zero esize h len cap = Panic MakesliceLenOutOfRange.
Proof. intros Hl. unfold make_slice. by destruct (Z.ltb_spec len 0); [|lia]. Qed.

(** The slice [make] returns: valid, zeroed, and nothing else moved. *)
Lemma make_slice_new h (len cap : nat) :
  let h' := h ++ [replicate cap zero] in
  let s := Slice (length h) 0 len cap in
  (len <= cap)%nat ->
  slice_valid h' s /\ slice_read h' s = replicate len zero /\ heap_extends h h'.
Proof.
  intros h' s Hl. subst h' s. split; [|split].
  - split; cbn; [done|]. rewrite array_of_app_new, length_replicate. lia.
  - unfold slice_read. cbn. rewrite array_of_app_new, drop_0, take_replicate.
    by rewrite Nat.min_l.
  - apply heap_extends_app.
Qed.

Lemma nil_slice_valid h : slice_valid h nil_slice.
Proof. split; cbn; lia. Qed.

Lemma nil_slice_read h : slice_read h nil_slice = [].
Proof. reflexivity. Qed.

(** [append] returns the old elements followed by the new ones, in a
    valid slice, whether it wrote in place or moved. *)
Lemma append_spec h s vs :
  slice_valid h s ->
  exists h' s',
    append zero slack h s vs = (h', s') /\
    slice_read h' s' = slice_read h s ++ vs /\
    s_len s' = (s_len s + length vs)%nat /\
    slice_valid h' s' /\
    heap_extends h h'.
Proof.
  intros [Hl Hc]. unfold append.
  destruct (Nat.leb_spec (s_len s + length vs) (s_cap s)) as [Hn|Hn].
  - set (X := list_write (array_of h (s_arr s)) (s_off s + s_len s) vs).
    assert (HX : length X = length (array_of h (s_arr s))).
    { unfold X, list_write. rewrite !length_app, length_take, length_drop. lia. }
    do 2 eexists. split; [done|]. split; [|split; [done|split]].
    + unfold slice_read. cbn [s_arr s_off s_len].
      rewrite (array_of_insert_same_length _ _ _ HX).
      unfold X, list_write.
      rewrite drop_app_le by (rewrite length_take; lia).
      rewrite app_assoc, take_app_length'.
      * f_equal. by rewrite take_drop_commute.
      * rewrite length_app, length_drop, length_take. lia.
    + split; cbn [s_arr s_off s_len s_cap]; [done|].
      rewrite (array_of_insert_same_length _ _ _ HX). lia.
    + by apply heap_extends_insert.
  - assert (Hr : length (slice_read h s) = s_len s)
      by (by apply length_slice_read).
    do 2 eexists. split; [done|]. split; [|split; [done|split]].
    + unfold slice_read at 1. cbn [s_arr s_off s_len].
      rewrite array_of_app_new, drop_0, app_assoc.
      apply take_app_length'. rewrite length_app. lia.
    + split; cbn [s_arr s_off s_len s_cap]; [lia|].
      rewrite array_of_app_new, !length_app, length_replicate. lia.
    + apply heap_extends_app.
Qed.
End SliceFacts.
End GoFacts.

(** ** Facts about functions.go *)

Module FunctionsFacts.
Import Go GoFacts Functions.

Example createSlice_3 :
  createSlice [] 3 = Ret ([[0; 0; 0]], Slice 0 0 3 3).
Proof. reflexivity. Qed.

Example initSliceViaPointer_3 :
  initSliceViaPointer {| arrays := []; slice_vars := [nil_slice] |} (Some 0%nat) 3
  = Ret {| arrays := [[0; 1; 2]]; slice_vars := [Slice 0 0 3 3] |}.
Proof. reflexivity. Qed.


(** A negative size makes [make] panic. *)
Lemma createSlice_negative (h : heap Z) (size : Z) :
  size < 0 -> createSlice h size = Panic MakesliceLenOutOfRange.
Proof. intros Hs. unfold createSlice. by apply make_slice_negative. Qed.

(** A negative size makes the reslicing [r[:size]] panic: the capacity
    test [cap(r) >= size] holds for every negative size. *)
Lemma initSliceViaPointer_negative (st : slice_state) (l : nat) (r : slice) (size : Z) :
  slice_vars st !! l = Some r -> size < 0 ->
  initSliceViaPointer st (Some l) size = Panic SliceBoundsOutOfRange.
Proof.
  intros Hr Hs. unfold initSliceViaPointer, load_slice. rewrite Hr, bind_Ret.
  destruct (Z.geb_spec (Z.of_nat (s_cap r)) size); [|lia].
  unfold reslice_to. by destruct (Z.leb_spec 0 size); [lia|].
Qed.


(** The second half: the loop stores [i] at every index [i]. *)
Lemma initSliceViaPointer_fill (st1 : slice_state) (l : nat) (s : slice) :
  slice_vars st1 !! l = Some s -> slice_valid (arrays st1) s ->
  exists st',
    for_range
      (fun st i =>
         r ← load_slice st (Some l);
         h ← slice_set (arrays st) r i (Z.of_nat i);
         Ret {| arrays := h; slice_vars := slice_vars st |})
      0 (s_len s) st1 = Ret st' /\
    slice_vars st' = slice_vars st1 /\
    slice_read (arrays st') s = Z.of_nat <$> seq 0 (s_len s).
Proof.
  intros Hs Hv.
  set (l0 := slice_read (arrays st1) s).
  assert (Hl0 : length l0 = s_len s) by (by apply length_slice_read).
  edestruct (for_range_inv
    (fun st i =>
       r ← load_slice st (Some l);
       h ← slice_set (arrays st) r i (Z.of_nat i);
       Ret {| arrays := h; slice_vars := slice_vars st |})
    (fun j st' =>
       slice_vars st' = slice_vars st1 /\
       heap_extends (arrays st1) (arrays st') /\
       slice_read (arrays st') s = (Z.of_nat <$> seq 0 j) ++ drop j l0)
    (s_len s) 0%nat st1) as (st' & Hloop & Hvars & _ & Hread).
  - intros j st [_ Hj] (Hvars & Hext & Hread). cbn in Hj.
    unfold load_slice. rewrite Hvars, Hs, bind_Ret.
    destruct (slice_set_read (arrays st) s j (Z.of_nat j)) as (h' & Hset & Hr' & He');
      [by eapply slice_valid_extends | done |].
    rewrite Hset, bind_Ret. eexists. split; [done|]. cbn [arrays slice_vars].
    split; [done|]. split; [by eapply heap_extends_trans|].
    rewrite Hr', Hread, seq_S, fmap_app. cbn [fmap list_fmap Nat.add].
    apply insert_after_prefix; [|lia].
    by rewrite length_fmap, length_seq.
  - split; [done|]. split; [apply heap_extends_refl|]. by rewrite drop_0.
  - exists st'. split; [done|]. split; [done|].
    cbn in Hread. rewrite Hread, drop_ge by lia. by rewrite app_nil_r.
Qed.




(** C5.  For every valid int reference [r], [setValueViaPointer(r)]
    returns with 42 stored at [r]; no cell is added to the store and no
    other cell changes. *)
Theorem setValueViaPointer_stores_42 (st : int_store) (l : nat) :
  (l < length st)%nat ->
  exists st',
    setValueViaPointer st (Some l) = Ret st' /\
    load_int st' (Some l) = Ret 42 /\
    length st' = length st /\
    forall l', l' <> l -> st' !! l' = st !! l'.
Proof.
  intros Hl. unfold setValueViaPointer, store_int.
  destruct (Nat.ltb_spec l (length st)); [|lia].
  eexists. split; [done|]. unfold load_int.
  rewrite list_lookup_insert_eq by done.
  split; [done|]. split; [apply length_insert|].
  intros l' Hne. by apply list_lookup_insert_ne.
Qed.

Lemma setValueViaPointer_stores_42_witness :
  (1 < length [7; 8; 9])%nat /\
  exists st',
    setValueViaPointer [7; 8; 9] (Some 1%nat) = Ret st' /\
    load_int st' (Some 1%nat) = Ret 42 /\
    length st' = length [7; 8; 9] /\
    forall l', l' <> 1%nat -> st' !! l' = [7; 8; 9] !! l'.
Proof.
  assert (Hl : (1 < length [7; 8; 9])%nat) by (cbn; lia).
  split; [exact Hl|].
  exact (setValueViaPointer_stores_42 [7; 8; 9] 1%nat Hl).
Defined.

Example setValueViaPointer_nil : setValueViaPointer [7] None = Panic NilDereference.
Proof. reflexivity. Qed.

(** C8 (as amended).  [sendToChannel(ch)] completes at once exactly when
    [ch] is an open channel with a receiver parked on it or with room in
    its buffer. *)
Theorem sendToChannel_completes_iff (ch : option hchan) :
  (exists c', sendToChannel ch = Ret (Completes c')) <->
  (exists c, ch = Some c /\ closed c = false /\
             ((0 < recvq c)%nat \/ (length (buf c) < dataqsiz c)%nat)).
Proof.
  unfold sendToChannel, chansend. split.
  - intros [c' Hc']. destruct ch as [c|]; [|done].
    exists c. split; [done|].
    destruct (closed c); [done|]. split; [done|].
    destruct (Nat.ltb_spec 0 (recvq c)); [by left|].
    destruct (Nat.ltb_spec (length (buf c)) (dataqsiz c)); [by right|done].
  - intros (c & -> & Hcl & Hroom). rewrite Hcl.
    destruct (Nat.ltb_spec 0 (recvq c)); [by eexists|].
    destruct (Nat.ltb_spec (length (buf c)) (dataqsiz c)); [by eexists|lia].
Qed.

(** With room in the buffer and nobody waiting, the value sent is 42 and
    it is stored last. *)
Lemma sendToChannel_room (c : hchan) :
  closed c = false -> recvq c = 0%nat -> (length (buf c) < dataqsiz c)%nat ->
  sendToChannel (Some c) = Ret (Completes (Hchan (dataqsiz c) (buf c ++ [42]) 0 false)).
Proof.
  intros Hcl Hq Hroom. unfold sendToChannel, chansend. rewrite Hcl, Hq.
  destruct (Nat.ltb_spec (length (buf c)) (dataqsiz c)); [reflexivity|lia].
Qed.

(** C8 as stated fails on a channel whose buffer is full: the send blocks. *)
Lemma send_on_full_buffer_blocks :
  sendToChannel (Some (Hchan 1 [42] 0 false)) = Ret Blocks.
Proof. reflexivity. Qed.

Example send_on_nil_channel_blocks : sendToChannel None = Ret Blocks.
Proof. reflexivity. Qed.

(** The benchmark receives after every send, which is why its loop never
    blocks: one round on an empty open channel with a buffer leaves it
    empty again. *)
Lemma bench_send_recv_empty (n : nat) :
  bench_send_recv (Some (Hchan (S n) [] 0 false))
  = Ret (Completes (Some (Hchan (S n) [] 0 false))).
Proof. reflexivity. Qed.
End FunctionsFacts.

(** ** Facts about keep_on_stack.go *)

Module KeepOnStackFacts.
Import Go GoFacts Functions KeepOnStack.

(** *** The table and the map *)

Lemma mapLookup_spec (key : Z) : mapLookup key = lookup_spec key.
Proof.
  unfold mapLookup.
  destruct (decide (key = 0)) as [->|H0]; [reflexivity|].
  destruct (decide (key = 1)) as [->|H1]; [reflexivity|].
  destruct (decide (key = 2)) as [->|H2]; [reflexivity|].
  destruct (decide (key = 3)) as [->|H3]; [reflexivity|].
  rewrite !lookup_insert_ne, lookup_singleton_ne by done.
  destruct key as [|p|p]; [done| |reflexivity].
  destruct p as [[p|p|]|[p|p|]|]; done.
Qed.

Lemma useArrayInsteadOfMap_spec (key : Z) :
  useArrayInsteadOfMap key = Ret (lookup_spec key).
Proof.
  unfold useArrayInsteadOfMap. cbn [length].
  destruct (Z.geb_spec key 0) as [Hge|Hlt]; cbn [andb].
  - destruct (Z.ltb_spec key (Z.of_nat 4)) as [Hin|Hout].
    + assert (key = 0 \/ key = 1 \/ key = 2 \/ key = 3) as [->|[->|[->| ->]]] by lia;
        reflexivity.
    + destruct key as [|p|p]; [lia| |lia].
      destruct p as [[p|p|]|[p|p|]|]; first [lia | reflexivity].
  - destruct key as [|p|p]; [lia|lia|reflexivity].
Qed.

(** C3.  For every key the four-entry table and the map give the same
    string: "zero", "one", "two", "three" for 0 to 3, "unknown" otherwise. *)
Theorem array_lookup_equals_map_lookup (key : Z) :
  useArrayInsteadOfMap key = Ret (mapLookup key) /\
  mapLookup key = lookup_spec key.
Proof.
  split; [|apply mapLookup_spec].
  rewrite mapLookup_spec. apply useArrayInsteadOfMap_spec.
Qed.

(** *** Pointers to a local *)

(** C6.  [returnValue()] is 42, and the pointers returned by
    [returnPointer()] and [returnLocalPointer()] point to a cell holding
    that same value. *)
Theorem pointer_results_hold_returnValue (st : int_store) :
  returnValue = 42 /\
  (let '(st', p) := returnPointer st in load_int st' p) = Ret returnValue /\
  (let '(st', p) := returnLocalPointer st in load_int st' p) = Ret returnValue.
Proof.
  unfold returnPointer, returnLocalPointer, load_int, returnValue.
  by rewrite list_lookup_middle.
Qed.

(** *** The pool *)

Lemma pool_ok_lookup (st : pool_state) (i : nat) (p : ptr) :
  pool_ok st = true -> pooled st !! i = Some p ->
  exists l, p = Some l /\ (l < length (objects st))%nat.
Proof.
  unfold pool_ok. rewrite forallb_forall. intros Hok Hi.
  specialize (Hok p). rewrite <- list_elem_of_In in Hok.
  specialize (Hok (list_elem_of_lookup_2 _ _ _ Hi)).
  destruct p as [l|]; [|done]. exists l. split; [done|]. by apply Nat.ltb_lt.
Qed.

Lemma pool_ok_intro (objs : list LargeStruct) (ps : list ptr) :
  (forall p, p ∈ ps -> exists l, p = Some l /\ (l < length objs)%nat) ->
  pool_ok {| objects := objs; pooled := ps |} = true.
Proof.
  intros H. unfold pool_ok. apply forallb_forall. intros p Hp.
  apply list_elem_of_In in Hp. destruct (H p Hp) as (l & -> & Hl).
  by apply Nat.ltb_lt.
Qed.

Lemma pool_ok_elem (st : pool_state) (p : ptr) :
  pool_ok st = true -> p ∈ pooled st ->
  exists l, p = Some l /\ (l < length (objects st))%nat.
Proof.
  intros Hok Hp. apply list_elem_of_lookup_1 in Hp as [i Hi].
  by eapply pool_ok_lookup.
Qed.

Lemma pool_ok_empty (objs : list LargeStruct) :
  pool_ok {| objects := objs; pooled := [] |} = true.
Proof. reflexivity. Qed.

(** Handing back an object keeps the pool well formed. *)
Lemma returnToPool_ok (keep : bool) (st : pool_state) (l : nat) :
  pool_ok st = true -> (l < length (objects st))%nat ->
  pool_ok (returnToPool keep st (Some l)) = true.
Proof.
  intros Hok Hl. unfold returnToPool, largeStructPool_Put.
  destruct keep; [|done]. apply pool_ok_intro. intros p Hp.
  apply elem_of_cons in Hp as [->|Hp]; [by exists l|]. by apply pool_ok_elem.
Qed.

(** C9.  Whatever the pool holds and whichever item [Get] picks,
    [useSyncPool] returns a pointer to a [LargeStruct] whose [data] is
    3000 zeros. *)
Theorem useSyncPool_returns_zeroed (pick : option nat) (st : pool_state) :
  pool_ok st = true ->
  exists st' l,
    useSyncPool pick st = Ret (st', Some l) /\
    load_data st' (Some l) = Some (replicate 3000 0) /\
    pool_ok st' = true.
Proof.
  intros Hok. unfold useSyncPool.
  assert (Hnew : exists st' l,
    (let '(st1, obj) := largeStructPool_New st in
     match obj with
     | Some l =>
         if (l <? length (objects st1))%nat
         then Ret ({| objects := <[l := LargeStruct_zero]> (objects st1);
                      pooled := pooled st1 |}, obj)
         else Panic NilDereference
     | None => Panic NilDereference
     end) = Ret (st', Some l) /\
    load_data st' (Some l) = Some (replicate 3000 0) /\
    pool_ok st' = true).
  { unfold largeStructPool_New. cbn [objects pooled].
    rewrite length_app. cbn [length].
    destruct (Nat.ltb_spec (length (objects st)) (length (objects st) + 1)); [|lia].
    do 2 eexists. split; [done|]. split.
    - unfold load_data. cbn [objects mbind option_bind].
      rewrite list_lookup_insert_eq by (rewrite length_app; cbn; lia). done.
    - apply pool_ok_intro. intros p Hp.
      destruct (pool_ok_elem st p Hok Hp) as (l & -> & Hl).
      exists l. split; [done|]. rewrite length_insert, length_app. lia. }
  unfold largeStructPool_Get.
  destruct pick as [i|]; [|exact Hnew].
  destruct (pooled st !! i) as [p|] eqn:Hi; [|exact Hnew].
  destruct (pool_ok_lookup st i p Hok Hi) as (l & -> & Hl).
  cbn [objects pooled].
  destruct (Nat.ltb_spec l (length (objects st))); [|lia].
  do 2 eexists. split; [done|]. split.
  - unfold load_data. cbn [objects mbind option_bind].
    by rewrite list_lookup_insert_eq.
  - apply pool_ok_intro. intros p Hp.
    apply list_elem_of_delete_inv in Hp.
    destruct (pool_ok_elem st p Hok Hp) as (l' & -> & Hl').
    exists l'. split; [done|]. by rewrite length_insert.
Qed.

Lemma useSyncPool_returns_zeroed_witness :
  pool_ok (returnToPool true {| objects := [{| data := replicate 3000 7 |}]; pooled := [] |}
             (Some 0%nat)) = true /\
  exists st' l,
    useSyncPool (Some 0%nat)
      (returnToPool true {| objects := [{| data := replicate 3000 7 |}]; pooled := [] |}
         (Some 0%nat))
    = Ret (st', Some l) /\
    load_data st' (Some l) = Some (replicate 3000 0) /\
    pool_ok st' = true.
Proof.
  split; [reflexivity|].
  apply useSyncPool_returns_zeroed. reflexivity.
Defined.

(** *** Appending in a loop *)

Section AppendLoop.
Variable slack : nat -> nat -> nat.

(** [k] iterations of [s = append(s, g(i))] append [g(i), ..., g(i+k-1)]. *)
Lemma append_loop (g : nat -> Z) (k i : nat) (h : heap Z) (s : slice) :
  slice_valid h s ->
  exists h' s',
    for_range
      (fun '(h, s) i => Ret (append 0 slack h s [g i])) i k (h, s)
    = Ret (h', s') /\
    slice_valid h' s' /\
    slice_read h' s' = slice_read h s ++ (g <$> seq i k).
Proof.
  revert i h s. induction k as [|k IH]; intros i h s Hv.
  - exists h, s. split; [done|]. split; [done|]. by rewrite app_nil_r.
  - destruct (append_spec 0 slack h s [g i] Hv)
      as (h1 & s1 & Happ & Hread1 & _ & Hv1 & _).
    destruct (IH (S i) h1 s1 Hv1) as (h' & s' & Hloop & Hv' & Hread').
    exists h', s'. cbn [for_range]. rewrite Happ. cbn [bind].
    split; [done|]. split; [done|].
    rewrite Hread', Hread1. cbn [seq fmap list_fmap]. by rewrite <- app_assoc.
Qed.
End AppendLoop.

(** The squares below 100 do not overflow. *)
Lemma squares_no_overflow :
  (fun i : nat => mul64 (Z.of_nat i) (Z.of_nat i)) <$> seq 0 100
  = (fun i : nat => Z.of_nat i * Z.of_nat i) <$> seq 0 100.
Proof. vm_compute. reflexivity. Qed.

(** C4.  Whatever the heap and however [append] grows its arrays,
    [preallocatedSlice()] and [sliceGrowth()] both return a slice of length
    100 whose element at every index [i] is [i*i]. *)
Theorem preallocated_and_growing_agree
    (slack1 slack2 : nat -> nat -> nat) (h1 h2 : heap Z) :
  exists h1' r1 h2' r2,
    preallocatedSlice slack1 h1 = Ret (h1', r1) /\
    sliceGrowth slack2 h2 = Ret (h2', r2) /\
    s_len r1 = 100%nat /\ s_len r2 = 100%nat /\
    slice_read h1' r1 = (fun i : nat => Z.of_nat i * Z.of_nat i) <$> seq 0 100 /\
    slice_read h2' r2 = (fun i : nat => Z.of_nat i * Z.of_nat i) <$> seq 0 100.
Proof.
  pose (g := fun i : nat => mul64 (Z.of_nat i) (Z.of_nat i)).
  assert (H100 : (0 <= 100)%nat) by lia.
  destruct (make_slice_new 0 h1 0 100 H100) as (Hv0 & Hr0 & _).
  destruct (append_loop slack1 g 100 0 _ _ Hv0) as (h1' & r1 & Hl1 & Hv1 & Hread1).
  destruct (append_loop slack2 g 100 0 h2 nil_slice (nil_slice_valid h2))
    as (h2' & r2 & Hl2 & Hv2 & Hread2).
  rewrite Hr0 in Hread1. rewrite nil_slice_read in Hread2.
  cbn [replicate app] in Hread1, Hread2. unfold g in Hread1, Hread2.
  rewrite squares_no_overflow in Hread1, Hread2.
  exists h1', r1, h2', r2.
  split; [|split; [exact Hl2|]].
  - unfold preallocatedSlice.
    rewrite (make_slice_Ret 0 8 h1 0 100) by (unfold maxAlloc; lia).
    change (Z.to_nat 100) with 100%nat. change (Z.to_nat 0) with 0%nat.
    rewrite bind_Ret. exact Hl1.
  - split; [|split; [|exact (conj Hread1 Hread2)]].
    + rewrite <- (length_slice_read h1' r1 Hv1), Hread1.
      rewrite length_fmap. apply length_seq.
    + rewrite <- (length_slice_read h2' r2 Hv2), Hread2.
      rewrite length_fmap. apply length_seq.
Qed.

(** *** The buffer processor *)

Lemma byte_xor_ff_involutive (b : byte) : byte_xor (byte_xor b xff) xff = b.
Proof. destruct b; reflexivity. Qed.

Lemma load_buffer_Ret (st : bp_state) (l : nat) (b : slice) :
  procs st !! l = Some {| buffer := b |} -> load_buffer st (Some l) = Ret b.
Proof. intros Hb. unfold load_buffer. by rewrite Hb. Qed.

Lemma store_buffer_Ret (st : bp_state) (l : nat) (b : slice) :
  (l < length (procs st))%nat ->
  store_buffer st (Some l) b =
    Ret {| bytes := bytes st; procs := <[l := {| buffer := b |}]> (procs st) |}.
Proof.
  intros Hl. unfold store_buffer. by destruct (Nat.ltb_spec l (length (procs st))); [|lia].
Qed.

(** The loop of [ProcessData] flips every byte seen through the buffer and
    leaves the processors as they are. *)
Lemma ProcessData_loop (st1 : bp_state) (l : nat) (b : slice) :
  procs st1 !! l = Some {| buffer := b |} -> slice_valid (bytes st1) b ->
  exists st2,
    for_range
      (fun st i =>
         b ← load_buffer st (Some l);
         v ← slice_get (bytes st) b i;
         h ← slice_set (bytes st) b i (byte_xor v xff);
         Ret {| bytes := h; procs := procs st |})
      0 (s_len b) st1 = Ret st2 /\
    procs st2 = procs st1 /\
    heap_extends (bytes st1) (bytes st2) /\
    slice_read (bytes st2) b = (fun v => byte_xor v xff) <$> slice_read (bytes st1) b.
Proof.
  intros Hb Hv.
  set (l0 := slice_read (bytes st1) b).
  assert (Hl0 : length l0 = s_len b) by (by apply length_slice_read).
  edestruct (for_range_inv
    (fun st i =>
       b ← load_buffer st (Some l);
       v ← slice_get (bytes st) b i;
       h ← slice_set (bytes st) b i (byte_xor v xff);
       Ret {| bytes := h; procs := procs st |})
    (fun j st' =>
       procs st' = procs st1 /\
       heap_extends (bytes st1) (bytes st') /\
       slice_read (bytes st') b
         = ((fun v => byte_xor v xff) <$> take j l0) ++ drop j l0)
    (s_len b) 0%nat st1) as (st2 & Hloop & Hprocs & Hext & Hread).
  - intros j st [_ Hj] (Hprocs & Hext & Hread). cbn in Hj.
    rewrite (load_buffer_Ret st l b) by (by rewrite Hprocs).
    rewrite bind_Ret.
    destruct (lookup_lt_is_Some_2 l0 j) as [v Hv0]; [lia|].
    assert (Hget : slice_read (bytes st) b !! j = Some v).
    { rewrite Hread, lookup_app_r; rewrite length_fmap, length_take; [|lia].
      rewrite lookup_drop, <- Hv0. f_equal. lia. }
    rewrite (slice_get_read _ _ _ _ Hget), bind_Ret.
    destruct (slice_set_read (bytes st) b j (byte_xor v xff)) as (h' & Hset & Hr' & He');
      [by eapply slice_valid_extends | done |].
    rewrite Hset, bind_Ret. eexists. split; [done|]. cbn [bytes procs].
    split; [done|]. split; [by eapply heap_extends_trans|].
    rewrite Hr', Hread, (take_S_r l0 j v Hv0), fmap_app. cbn [fmap list_fmap].
    apply insert_after_prefix; [|lia].
    rewrite length_fmap, length_take. lia.
  - split; [done|]. split; [apply heap_extends_refl|]. by rewrite drop_0.
  - exists st2. split; [done|]. split; [done|]. split; [done|].
    cbn in Hread. rewrite Hread, drop_ge, take_ge by lia. by rewrite app_nil_r.
Qed.

Section ProcessDataSpec.
Variable slack : nat -> nat -> nat.

(** What a call of [ProcessData] does on a processor with a valid buffer:
    it returns; the result holds the flipped bytes of [data] as they were
    at the call; the result is the processor's new buffer; and all slices
    valid before are valid after. *)
Lemma ProcessData_spec (st : bp_state) (l : nat) (b data : slice) :
  procs st !! l = Some {| buffer := b |} ->
  slice_valid (bytes st) b -> slice_valid (bytes st) data ->
  exists st' r,
    ProcessData slack st (Some l) data = Ret (st', r) /\
    slice_read (bytes st') r
      = (fun v => byte_xor v xff) <$> slice_read (bytes st) data /\
    s_len r = s_len data /\
    procs st' = <[l := {| buffer := r |}]> (procs st) /\
    heap_extends (bytes st) (bytes st') /\
    slice_valid (bytes st') r.
Proof.
  intros Hb [Hbl Hbc] Hvd.
  assert (Hl : (l < length (procs st))%nat) by (by eapply lookup_lt_Some).
  set (b0 := Slice (s_arr b) (s_off b) 0 (s_cap b)).
  set (st0 := {| bytes := bytes st; procs := <[l := {| buffer := b0 |}]> (procs st) |}).
  assert (Hvb0 : slice_valid (bytes st0) b0) by (split; cbn; [lia|done]).
  destruct (append_spec x00 slack (bytes st0) b0 (slice_read (bytes st0) data) Hvb0)
    as (h & b1 & Happ & Hread1 & Hlen1 & Hv1 & Hext1).
  set (st1 := {| bytes := h; procs := <[l := {| buffer := b1 |}]> (procs st0) |}).
  assert (Hb1 : procs st1 !! l = Some {| buffer := b1 |}).
  { cbn. apply list_lookup_insert_eq. by rewrite length_insert. }
  destruct (ProcessData_loop st1 l b1 Hb1 Hv1) as (st2 & Hloop & Hprocs & Hext2 & Hread2).
  exists st2, b1. split.
  - unfold ProcessData.
    rewrite (load_buffer_Ret st l b Hb), bind_Ret.
    unfold reslice_to.
    destruct (Z.leb_spec 0 (Z.of_nat (s_cap b))); [|lia].
    change (0 <=? 0) with true. cbn [andb]. change (Z.to_nat 0) with 0%nat.
    fold b0. rewrite bind_Ret.
    rewrite (store_buffer_Ret st l b0 Hl), bind_Ret. fold st0.
    rewrite (load_buffer_Ret st0 l b0), bind_Ret
      by (cbn; by apply list_lookup_insert_eq).
    rewrite Happ.
    rewrite (store_buffer_Ret {| bytes := h; procs := procs st0 |} l b1), bind_Ret
      by (cbn; by rewrite length_insert).
    cbn [bytes procs]. fold st1.
    rewrite (load_buffer_Ret st1 l b1 Hb1), bind_Ret.
    rewrite Hloop, bind_Ret.
    rewrite (load_buffer_Ret st2 l b1), bind_Ret by (by rewrite Hprocs).
    done.
  - assert (Hlend : length (slice_read (bytes st) data) = s_len data)
      by (by apply length_slice_read).
    split; [|split; [|split; [|split]]].
    + rewrite Hread2. change (bytes st1) with h. rewrite Hread1. reflexivity.
    + rewrite Hlen1. change (bytes st0) with (bytes st). cbn [s_len b0]. lia.
    + rewrite Hprocs. cbn [procs]. apply list_insert_insert_eq.
    + eapply heap_extends_trans; [exact Hext1|exact Hext2].
    + by eapply slice_valid_extends.
Qed.
End ProcessDataSpec.

Lemma bp_valid_inv (st : bp_state) (bp : ptr) :
  bp_valid st bp ->
  exists l b, bp = Some l /\ procs st !! l = Some {| buffer := b |} /\
              slice_valid (bytes st) b.
Proof.
  unfold bp_valid. destruct bp as [l|]; [|done].
  destruct (procs st !! l) as [[b]|] eqn:Hb; [|done]. intros Hv.
  exists l, b. split; [reflexivity|]. split; [exact Hb|]. exact Hv.
Qed.

(** A call of [ProcessData] keeps every processor valid. *)
Lemma ProcessData_keeps_valid (st st' : bp_state) (l : nat) (r : slice) (bp' : ptr) :
  procs st' = <[l := {| buffer := r |}]> (procs st) ->
  heap_extends (bytes st) (bytes st') -> slice_valid (bytes st') r ->
  bp_valid st bp' -> bp_valid st' bp'.
Proof.
  intros Hprocs Hext Hr Hbp'.
  destruct (bp_valid_inv st bp' Hbp') as (l' & b' & -> & Hb' & Hvb').
  unfold bp_valid. rewrite Hprocs.
  destruct (decide (l = l')) as [<-|Hne].
  - rewrite list_lookup_insert_eq by (by eapply lookup_lt_Some). done.
  - rewrite list_lookup_insert_ne, Hb' by done. by eapply slice_valid_extends.
Qed.

(** C10.  On every processor and every input slice, [ProcessData(data)]
    returns a slice as long as [data] whose bytes are those of [data], each
    XORed with 0xFF; running the result through [ProcessData] again, on
    this or any other processor, gives the bytes of [data] back. *)
Theorem ProcessData_flips_every_byte
    (slack : nat -> nat -> nat) (st : bp_state) (bp bp' : ptr) (data : slice) :
  bp_valid st bp -> bp_valid st bp' -> slice_valid (bytes st) data ->
  exists st1 r1,
    ProcessData slack st bp data = Ret (st1, r1) /\
    s_len r1 = s_len data /\
    slice_read (bytes st1) r1
      = (fun v => byte_xor v xff) <$> slice_read (bytes st) data /\
    exists st2 r2,
      ProcessData slack st1 bp' r1 = Ret (st2, r2) /\
      slice_read (bytes st2) r2 = slice_read (bytes st) data.
Proof.
  intros Hbp Hbp' Hvd.
  destruct (bp_valid_inv st bp Hbp) as (l & b & -> & Hb & Hvb).
  destruct (ProcessData_spec slack st l b data Hb Hvb Hvd)
    as (st1 & r1 & Hcall1 & Hread1 & Hlen1 & Hprocs1 & Hext1 & Hv1).
  exists st1, r1. split; [done|]. split; [done|]. split; [done|].
  pose proof (ProcessData_keeps_valid st st1 l r1 bp' Hprocs1 Hext1 Hv1 Hbp') as Hbp1.
  destruct (bp_valid_inv st1 bp' Hbp1) as (l' & b' & -> & Hb' & Hvb').
  destruct (ProcessData_spec slack st1 l' b' r1 Hb' Hvb' Hv1)
    as (st2 & r2 & Hcall2 & Hread2 & _).
  exists st2, r2. split; [done|].
  rewrite Hread2, Hread1, <- list_fmap_compose.
  rewrite <- (list_fmap_id (slice_read (bytes st) data)) at 2.
  apply list_fmap_ext. intros _ v _. apply byte_xor_ff_involutive.
Qed.

Lemma ProcessData_flips_every_byte_witness :
  (bp_valid fresh_processor (Some 0%nat) /\ bp_valid fresh_processor (Some 0%nat) /\
   slice_valid (bytes fresh_processor) (Slice 0 0 3 3)) /\
  exists st1 r1,
    ProcessData (fun _ _ => 0%nat) fresh_processor (Some 0%nat) (Slice 0 0 3 3)
      = Ret (st1, r1) /\
    s_len r1 = s_len (Slice 0 0 3 3) /\
    slice_read (bytes st1) r1
      = (fun v => byte_xor v xff) <$> slice_read (bytes fresh_processor) (Slice 0 0 3 3) /\
    exists st2 r2,
      ProcessData (fun _ _ => 0%nat) st1 (Some 0%nat) r1 = Ret (st2, r2) /\
      slice_read (bytes st2) r2 = slice_read (bytes fresh_processor) (Slice 0 0 3 3).
Proof.
  assert (Hbp : bp_valid fresh_processor (Some 0%nat)) by (split; cbn; lia).
  assert (Hd : slice_valid (bytes fresh_processor) (Slice 0 0 3 3)) by (split; cbn; lia).
  split; [done|].
  exact (ProcessData_flips_every_byte (fun _ _ => 0%nat) fresh_processor
           (Some 0%nat) (Some 0%nat) (Slice 0 0 3 3) Hbp Hbp Hd).
Defined.

(** C7 (as amended).  The slice [ProcessData(data)] returns is the buffer
    the processor keeps for its next call; its bytes depend on the bytes of
    [data] alone: two calls given the same bytes return the same bytes,
    whatever the two processors, the contents their buffers were left with,
    the rest of the heap and the growth of [append]. *)
Theorem ProcessData_result_depends_on_data_only
    (slack slack' : nat -> nat -> nat) (st st' : bp_state) (bp bp' : ptr)
    (data data' : slice) :
  bp_valid st bp -> slice_valid (bytes st) data ->
  bp_valid st' bp' -> slice_valid (bytes st') data' ->
  slice_read (bytes st) data = slice_read (bytes st') data' ->
  exists st1 r st1' r',
    ProcessData slack st bp data = Ret (st1, r) /\
    ProcessData slack' st' bp' data' = Ret (st1', r') /\
    load_buffer st1 bp = Ret r /\
    load_buffer st1' bp' = Ret r' /\
    slice_read (bytes st1) r = slice_read (bytes st1') r'.
Proof.
  intros Hbp Hvd Hbp' Hvd' Hsame.
  destruct (bp_valid_inv st bp Hbp) as (l & b & -> & Hb & Hvb).
  destruct (bp_valid_inv st' bp' Hbp') as (l' & b' & -> & Hb' & Hvb').
  destruct (ProcessData_spec slack st l b data Hb Hvb Hvd)
    as (st1 & r & Hcall & Hread & _ & Hprocs & _).
  destruct (ProcessData_spec slack' st' l' b' data' Hb' Hvb' Hvd')
    as (st1' & r' & Hcall' & Hread' & _ & Hprocs' & _).
  exists st1, r, st1', r'. split; [done|]. split; [done|].
  split; [|split].
  - apply load_buffer_Ret. rewrite Hprocs.
    apply list_lookup_insert_eq. by eapply lookup_lt_Some.
  - apply load_buffer_Ret. rewrite Hprocs'.
    apply list_lookup_insert_eq. by eapply lookup_lt_Some.
  - by rewrite Hread, Hread', Hsame.
Qed.

Lemma ProcessData_result_depends_on_data_only_witness :
  (bp_valid fresh_processor (Some 0%nat) /\
   slice_valid (bytes fresh_processor) (Slice 0 0 3 3) /\
   bp_valid used_processor (Some 0%nat) /\
   slice_valid (bytes used_processor) (Slice 1 1 3 3) /\
   slice_read (bytes fresh_processor) (Slice 0 0 3 3)
     = slice_read (bytes used_processor) (Slice 1 1 3 3)) /\
  exists st1 r st1' r',
    ProcessData (fun _ _ => 0%nat) fresh_processor (Some 0%nat) (Slice 0 0 3 3)
      = Ret (st1, r) /\
    ProcessData (fun c _ => c) used_processor (Some 0%nat) (Slice 1 1 3 3)
      = Ret (st1', r') /\
    load_buffer st1 (Some 0%nat) = Ret r /\
    load_buffer st1' (Some 0%nat) = Ret r' /\
    slice_read (bytes st1) r = slice_read (bytes st1') r'.
Proof.
  set (st := fresh_processor). set (st' := used_processor).
  assert (Hbp : bp_valid st (Some 0%nat)) by (split; cbn; lia).
  assert (Hd : slice_valid (bytes st) (Slice 0 0 3 3)) by (split; cbn; lia).
  assert (Hbp' : bp_valid st' (Some 0%nat)) by (split; cbn; lia).
  assert (Hd' : slice_valid (bytes st') (Slice 1 1 3 3)) by (split; cbn; lia).
  assert (Hsame : slice_read (bytes st) (Slice 0 0 3 3)
                  = slice_read (bytes st') (Slice 1 1 3 3)) by reflexivity.
  split; [done|].
  exact (ProcessData_result_depends_on_data_only (fun _ _ => 0%nat) (fun c _ => c)
           st st' (Some 0%nat) (Some 0%nat) (Slice 0 0 3 3) (Slice 1 1 3 3)
           Hbp Hd Hbp' Hd' Hsame).
Defined.

(** The buffer outlives the call: a processor made by [NewBufferProcessor]
    is given the bytes 1, 2, 3 and then the byte 4.  Both results are the
    same array, and the first result, read after the second call, starts
    with the flipped 4. *)
Example second_call_overwrites_first_result :
  exists st bp st1 r1 st2 r2,
    NewBufferProcessor {| bytes := [[x01; x02; x03]; [x04]]; procs := [] |}
      = Ret (st, bp) /\
    ProcessData (fun _ _ => 0%nat) st bp (Slice 0 0 3 3) = Ret (st1, r1) /\
    ProcessData (fun _ _ => 0%nat) st1 bp (Slice 1 0 1 1) = Ret (st2, r2) /\
    slice_read (bytes st1) r1 = [xfe; xfd; xfc] /\
    slice_read (bytes st2) r1 = [xfb; xfd; xfc] /\
    s_arr r1 = s_arr r2.
Proof.
  do 6 eexists.
  split; [vm_compute; reflexivity|].
  split; [vm_compute; reflexivity|].
  split; [vm_compute; reflexivity|].
  split; [vm_compute; reflexivity|].
  split; vm_compute; reflexivity.
Qed.

(** C7 as stated fails: the buffer is not used within a single call only,
    the next call on the processor changes what the result shows. *)
Lemma buffer_survives_the_call :
  ~ (forall slack, buffer_used_within_one_call slack).
Proof.
  intros H.
  destruct second_call_overwrites_first_result
    as (st & bp & st1 & r1 & st2 & r2 & _ & Hc1 & Hc2 & Hr1 & Hr2 & _).
  specialize (H _ _ _ _ _ _ _ _ _ Hc1 Hc2).
  rewrite Hr1, Hr2 in H. discriminate H.
Qed.

(** What [pool_ok] rules out: a nil pointer handed to [returnToPool] is
    kept by the pool as it is, and the reset in [useSyncPool] dereferences
    it. *)
Example useSyncPool_after_nil :
  useSyncPool (Some 0%nat)
    (returnToPool true {| objects := []; pooled := [] |} None)
  = Panic NilDereference.
Proof. reflexivity. Qed.
End KeepOnStackFacts.

(** ** More about functions.go: bounds, reuse of capacity, the benchmark loops *)

Module FunctionsMore.
Import Go GoFacts Functions FunctionsFacts.

(** A loop that returns ends in a state that satisfies whatever every
    iteration preserves. *)
Lemma for_range_preserves {St : Type} (body : St -> nat -> result St)
    (P : St -> Prop) (k i : nat) (st st' : St) :
  (forall j s s', body s j = Ret s' -> P s -> P s') ->
  for_range body i k st = Ret st' -> P st -> P st'.
Proof.
  intros Hstep. revert i st. induction k as [|k IH]; intros i st Hloop HP.
  - cbn in Hloop. by injection Hloop as <-.
  - cbn [for_range] in Hloop.
    destruct (body st i) as [s|] eqn:Hb; [|discriminate Hloop].
    cbn [bind] in Hloop. eapply IH; [exact Hloop|]. by eapply Hstep.
Qed.

Lemma array_rewritten_refl {A : Type} (a : nat) (h : heap A) : array_rewritten a h h.
Proof.
  exists (array_of h a). split; [|done].
  unfold array_of. destruct (h !! a) as [X|] eqn:Ha.
  - by rewrite list_insert_id.
  - rewrite list_insert_ge; [done|]. by apply lookup_ge_None.
Qed.

Lemma array_rewritten_insert {A : Type} (a : nat) (h h' : heap A) (Y : list A) :
  array_rewritten a h h' -> length Y = length (array_of h' a) ->
  array_rewritten a h (<[a := Y]> h').
Proof.
  intros (X & -> & HX) HY. exists Y. split; [apply list_insert_insert_eq|].
  by rewrite HY, (array_of_insert_same_length h a X HX).
Qed.

Lemma array_rewritten_length {A : Type} (a : nat) (h h' : heap A) :
  array_rewritten a h h' -> length h' = length h.
Proof. intros (X & -> & _). apply length_insert. Qed.

Lemma array_rewritten_other {A : Type} (a b : nat) (h h' : heap A) :
  array_rewritten a h h' -> a <> b -> array_of h' b = array_of h b.
Proof. intros (X & -> & _) Hab. by apply array_of_insert_ne. Qed.

Lemma array_rewritten_extends {A : Type} (a : nat) (h h' : heap A) :
  array_rewritten a h h' -> heap_extends h h'.
Proof. intros (X & -> & HX). by apply heap_extends_insert. Qed.

Lemma slice_set_rewrites {A : Type} (h h' : heap A) (s : slice) (i : nat) (v : A) :
  slice_set h s i v = Ret h' -> array_rewritten (s_arr s) h h'.
Proof.
  unfold slice_set. destruct (i <? s_len s)%nat; [|discriminate].
  intros [= <-]. eexists. split; [done|]. apply length_insert.
Qed.


(** X2.  [initSliceViaPointer] on a slice variable panics on a negative
    size, at the reslicing [r[:size]], and on a size beyond both the
    capacity and what [make] can allocate, at [make]. *)
Theorem initSliceViaPointer_panics (st : slice_state) (l : nat) (r : slice) (size : Z) :
  slice_vars st !! l = Some r ->
  size < 0 \/ (Z.of_nat (s_cap r) < size /\ 2 ^ 45 < size) ->
  initSliceViaPointer st (Some l) size =
    Panic (if size <? 0 then SliceBoundsOutOfRange else MakesliceLenOutOfRange).
Proof.
  intros Hr Hsize.
  assert (Hload : load_slice st (Some l) = Ret r)
    by (unfold load_slice; by rewrite Hr).
  unfold initSliceViaPointer. rewrite Hload, bind_Ret.
  destruct (Z.ltb_spec size 0) as [Hneg|Hpos].
  - destruct (Z.geb_spec (Z.of_nat (s_cap r)) size); [|lia].
    unfold reslice_to. by destruct (Z.leb_spec 0 size); [lia|].
  - destruct Hsize as [?|[Hcap Hbig]]; [lia|].
    destruct (Z.geb_spec (Z.of_nat (s_cap r)) size); [lia|].
    unfold make_slice, maxAlloc.
    destruct (Z.ltb_spec size 0); [lia|].
    by destruct (Z.ltb_spec (2 ^ 48) (8 * size)); [|lia].
Qed.

Lemma initSliceViaPointer_panics_witness :
  (slice_vars {| arrays := [[5; 6]]; slice_vars := [Slice 0 0 2 2] |} !! 0%nat
     = Some (Slice 0 0 2 2) /\
   (-3 < 0 \/ (Z.of_nat (s_cap (Slice 0 0 2 2)) < -3 /\ 2 ^ 45 < -3))) /\
  initSliceViaPointer {| arrays := [[5; 6]]; slice_vars := [Slice 0 0 2 2] |}
    (Some 0%nat) (-3)
  = Panic (if -3 <? 0 then SliceBoundsOutOfRange else MakesliceLenOutOfRange).
Proof.
  assert (Hr : slice_vars {| arrays := [[5; 6]]; slice_vars := [Slice 0 0 2 2] |} !! 0%nat
               = Some (Slice 0 0 2 2)) by reflexivity.
  assert (Hs : -3 < 0 \/ (Z.of_nat (s_cap (Slice 0 0 2 2)) < -3 /\ 2 ^ 45 < -3))
    by (left; lia).
  split; [done|].
  exact (initSliceViaPointer_panics _ 0%nat _ (-3) Hr Hs).
Defined.

Example initSliceViaPointer_nil (st : slice_state) (size : Z) :
  initSliceViaPointer st None size = Panic NilDereference.
Proof. reflexivity. Qed.

(** The loop of [initSliceViaPointer] writes one array only. *)
Lemma initSliceViaPointer_fill_rewrites (st1 st' : slice_state) (l : nat) (s : slice) :
  slice_vars st1 !! l = Some s ->
  for_range
    (fun st i =>
       r ← load_slice st (Some l);
       h ← slice_set (arrays st) r i (Z.of_nat i);
       Ret {| arrays := h; slice_vars := slice_vars st |})
    0 (s_len s) st1 = Ret st' ->
  array_rewritten (s_arr s) (arrays st1) (arrays st').
Proof.
  intros Hs Hloop.
  eapply (for_range_preserves _
            (fun st => slice_vars st = slice_vars st1 /\
                       array_rewritten (s_arr s) (arrays st1) (arrays st)))
    in Hloop as [_ Hrw]; [exact Hrw| |].
  - intros j a a' Hb [Hv Hrw]. unfold load_slice in Hb.
    rewrite Hv, Hs, bind_Ret in Hb.
    destruct (slice_set (arrays a) s j (Z.of_nat j)) as [h|] eqn:Hset;
      [|discriminate Hb].
    rewrite bind_Ret in Hb. injection Hb as <-. split; [reflexivity|].
    cbn [arrays].
    destruct (slice_set_rewrites _ _ _ _ _ Hset) as (Y & -> & HY).
    by apply array_rewritten_insert.
  - split; [reflexivity|]. apply array_rewritten_refl.
Qed.

(** The call when the capacity suffices. *)
Lemma initSliceViaPointer_reuse_effect
    (st : slice_state) (l : nat) (r : slice) (size : Z) :
  slice_vars st !! l = Some r -> slice_valid (arrays st) r ->
  0 <= size <= Z.of_nat (s_cap r) ->
  exists st',
    initSliceViaPointer st (Some l) size = Ret st' /\
    slice_vars st'
      = <[l := Slice (s_arr r) (s_off r) (Z.to_nat size) (s_cap r)]> (slice_vars st) /\
    array_rewritten (s_arr r) (arrays st) (arrays st') /\
    slice_read (arrays st') (Slice (s_arr r) (s_off r) (Z.to_nat size) (s_cap r))
      = Z.of_nat <$> seq 0 (Z.to_nat size).
Proof.
  intros Hr [Hl Hc] Hsize.
  assert (Hlt : (l < length (slice_vars st))%nat) by (by eapply lookup_lt_Some).
  set (s := Slice (s_arr r) (s_off r) (Z.to_nat size) (s_cap r)).
  set (st1 := {| arrays := arrays st; slice_vars := <[l := s]> (slice_vars st) |}).
  assert (Hs1 : slice_vars st1 !! l = Some s) by (by apply list_lookup_insert_eq).
  assert (Hv1 : slice_valid (arrays st1) s) by (split; cbn; lia).
  destruct (initSliceViaPointer_fill st1 l s Hs1 Hv1) as (st' & Hloop & Hvars & Hread).
  exists st'. split; [|split; [exact Hvars|split; [|exact Hread]]].
  - assert (Hload : load_slice st (Some l) = Ret r)
      by (unfold load_slice; by rewrite Hr).
    assert (Hload1 : load_slice st1 (Some l) = Ret s)
      by (unfold load_slice; by rewrite Hs1).
    unfold initSliceViaPointer. rewrite Hload, bind_Ret.
    destruct (Z.geb_spec (Z.of_nat (s_cap r)) size); [|lia].
    unfold reslice_to.
    destruct (Z.leb_spec 0 size); [|lia].
    destruct (Z.leb_spec size (Z.of_nat (s_cap r))); [|lia].
    cbn [andb]. fold s. rewrite bind_Ret.
    unfold store_slice. destruct (Nat.ltb_spec l (length (slice_vars st))); [|lia].
    fold st1. rewrite bind_Ret, Hload1, bind_Ret. exact Hloop.
  - exact (initSliceViaPointer_fill_rewrites st1 st' l s Hs1 Hloop).
Qed.

(** X3.  When the capacity suffices ([0 <= size <= cap]),
    [initSliceViaPointer] allocates nothing: the variable keeps its array,
    offset and capacity with the length set to [size], the elements become
    0, 1, ..., size-1, and no other array is written. *)
Theorem initSliceViaPointer_reuses_capacity
    (st : slice_state) (l : nat) (r : slice) (size : Z) :
  slice_vars st !! l = Some r -> slice_valid (arrays st) r ->
  0 <= size <= Z.of_nat (s_cap r) ->
  exists st',
    initSliceViaPointer st (Some l) size = Ret st' /\
    slice_vars st'
      = <[l := Slice (s_arr r) (s_off r) (Z.to_nat size) (s_cap r)]> (slice_vars st) /\
    array_rewritten (s_arr r) (arrays st) (arrays st') /\
    slice_read (arrays st') (Slice (s_arr r) (s_off r) (Z.to_nat size) (s_cap r))
      = Z.of_nat <$> seq 0 (Z.to_nat size).
Proof.
  intros Hr Hv Hsize.
  destruct (initSliceViaPointer_reuse_effect st l r size Hr Hv Hsize)
    as (st' & Hcall & Hvars & Hrw & Hread).
  exists st'. split; [exact Hcall|]. split; [exact Hvars|].
  split; [exact Hrw|exact Hread].
Qed.

Lemma initSliceViaPointer_reuses_capacity_witness :
  (slice_vars {| arrays := [[5; 6; 7; 8]]; slice_vars := [Slice 0 1 1 3] |} !! 0%nat
     = Some (Slice 0 1 1 3) /\
   slice_valid (arrays {| arrays := [[5; 6; 7; 8]]; slice_vars := [Slice 0 1 1 3] |})
     (Slice 0 1 1 3) /\
   0 <= 2 <= Z.of_nat (s_cap (Slice 0 1 1 3))) /\
  exists st',
    initSliceViaPointer {| arrays := [[5; 6; 7; 8]]; slice_vars := [Slice 0 1 1 3] |}
      (Some 0%nat) 2 = Ret st' /\
    slice_vars st'
      = <[0%nat := Slice (s_arr (Slice 0 1 1 3)) (s_off (Slice 0 1 1 3)) (Z.to_nat 2)
                     (s_cap (Slice 0 1 1 3))]>
          (slice_vars {| arrays := [[5; 6; 7; 8]]; slice_vars := [Slice 0 1 1 3] |}) /\
    array_rewritten (s_arr (Slice 0 1 1 3))
      (arrays {| arrays := [[5; 6; 7; 8]]; slice_vars := [Slice 0 1 1 3] |})
      (arrays st') /\
    slice_read (arrays st')
      (Slice (s_arr (Slice 0 1 1 3)) (s_off (Slice 0 1 1 3)) (Z.to_nat 2)
         (s_cap (Slice 0 1 1 3)))
    = Z.of_nat <$> seq 0 (Z.to_nat 2).
Proof.
  assert (Hr : slice_vars {| arrays := [[5; 6; 7; 8]]; slice_vars := [Slice 0 1 1 3] |}
                 !! 0%nat = Some (Slice 0 1 1 3)) by reflexivity.
  assert (Hv : slice_valid
                 (arrays {| arrays := [[5; 6; 7; 8]]; slice_vars := [Slice 0 1 1 3] |})
                 (Slice 0 1 1 3)) by (split; cbn; lia).
  assert (Hs : 0 <= 2 <= Z.of_nat (s_cap (Slice 0 1 1 3))) by (cbn; lia).
  split; [done|].
  exact (initSliceViaPointer_reuses_capacity _ 0%nat _ 2 Hr Hv Hs).
Defined.

Example initSliceViaPointer_reuse_run :
  initSliceViaPointer {| arrays := [[5; 6; 7; 8]]; slice_vars := [Slice 0 1 1 3] |}
    (Some 0%nat) 2
  = Ret {| arrays := [[5; 0; 1; 8]]; slice_vars := [Slice 0 1 2 3] |}.
Proof. reflexivity. Qed.







(** X6.  On a pointer to a [LargeStruct], whatever its contents,
    [setLargeStructViaPointer] returns with [data] holding 0, 1, ..., 2999;
    no object is added and no other object changes. *)
Theorem setLargeStructViaPointer_fills
    (objs : list LargeStruct) (l : nat) (s : LargeStruct) :
  objs !! l = Some s -> length (data s) = 3000%nat ->
  setLargeStructViaPointer objs (Some l)
  = Ret (<[l := {| data := Z.of_nat <$> seq 0 3000 |}]> objs).
Proof.
  intros Hs Hlen. unfold setLargeStructViaPointer.
  assert (Hl : (l < length objs)%nat) by (by eapply lookup_lt_Some).
  edestruct (for_range_inv
    (fun objs i =>
       match objs !! l with
       | Some s => Ret (<[l := {| data := <[i := Z.of_nat i]> (data s) |}]> objs)
       | None => Panic NilDereference
       end)
    (fun j objs' =>
       objs' = <[l := {| data := (Z.of_nat <$> seq 0 j) ++ drop j (data s) |}]> objs)
    3000 0%nat objs) as (objs' & Hloop & Hfinal).
  - intros j o [_ Hj] ->. rewrite Nat.add_0_l in Hj.
    rewrite list_lookup_insert_eq by exact Hl.
    eexists. split; [reflexivity|].
    rewrite list_insert_insert_eq. cbn [data]. do 2 f_equal.
    rewrite seq_S, fmap_app. cbn [fmap list_fmap Nat.add].
    apply insert_after_prefix; [|lia].
    by rewrite length_fmap, length_seq.
  - rewrite drop_0. cbn [seq fmap list_fmap app].
    destruct s as [d]. cbn [data]. symmetry. by apply list_insert_id.
  - rewrite Hloop, Hfinal. do 3 f_equal.
    rewrite Nat.add_0_l, drop_ge by lia. apply app_nil_r.
Qed.

Lemma setLargeStructViaPointer_fills_witness :
  ((fst (returnLargePointer [])) !! 0%nat = Some LargeStruct_zero /\
   length (data LargeStruct_zero) = 3000%nat) /\
  setLargeStructViaPointer (fst (returnLargePointer [])) (Some 0%nat)
  = Ret (<[0%nat := {| data := Z.of_nat <$> seq 0 3000 |}]> (fst (returnLargePointer []))).
Proof.
  assert (Hs : (fst (returnLargePointer [])) !! 0%nat = Some LargeStruct_zero)
    by reflexivity.
  assert (Hlen : length (data LargeStruct_zero) = 3000%nat) by apply length_replicate.
  split; [exact (conj Hs Hlen)|].
  exact (setLargeStructViaPointer_fills _ 0%nat _ Hs Hlen).
Defined.

Example setLargeStructViaPointer_nil (objs : list LargeStruct) :
  setLargeStructViaPointer objs None = Panic NilDereference.
Proof. reflexivity. Qed.

(** X7.  [BenchmarkAssignToMap]: every call of [assignToMap] puts its 42 in
    a cell of its own and points the entry "key" to it.  After one or more
    calls the store has grown by one cell per call, all holding 42, the
    entry points to the last of them, and no other key or map has changed. *)
Theorem BenchmarkAssignToMap_leaks_a_cell_per_call
    (n : nat) (st : map_state) (l : nat) (mp : gmap string ptr) :
  maps st !! l = Some mp ->
  BenchmarkAssignToMap_loop (S n) st (Some l)
  = Assigned
      {| cells := cells st ++ replicate (S n) 42;
         maps := <[l := <["key"%string := Some (length (cells st) + n)%nat]> mp]>
                   (maps st) |}.
Proof.
  revert st mp. induction n as [|n IH]; intros st mp Hmp.
  - cbn [BenchmarkAssignToMap_loop]. unfold assignToMap. rewrite Hmp.
    by rewrite Nat.add_0_r.
  - change (BenchmarkAssignToMap_loop (S (S n)) st (Some l))
      with (match assignToMap st (Some l) with
            | Assigned st' => BenchmarkAssignToMap_loop (S n) st' (Some l)
            | NilMapPanic => NilMapPanic
            end).
    unfold assignToMap at 1. rewrite Hmp.
    rewrite (IH _ (<["key"%string := Some (length (cells st))]> mp)).
    + cbn [cells maps]. f_equal. f_equal.
      * rewrite <- app_assoc. reflexivity.
      * rewrite list_insert_insert_eq, insert_insert_eq, length_app. cbn [length].
        do 3 f_equal. lia.
    + cbn [maps]. apply list_lookup_insert_eq. by eapply lookup_lt_Some.
Qed.

Lemma BenchmarkAssignToMap_leaks_a_cell_per_call_witness :
  maps {| cells := [7]; maps := [∅] |} !! 0%nat = Some ∅ /\
  BenchmarkAssignToMap_loop 3 {| cells := [7]; maps := [∅] |} (Some 0%nat)
  = Assigned
      {| cells := cells {| cells := [7]; maps := [∅] |} ++ replicate 3 42;
         maps := <[0%nat := <["key"%string :=
                      Some (Nat.add (length (cells {| cells := [7]; maps := [∅] |})) 2)]> ∅]>
                   (maps {| cells := [7]; maps := [∅] |}) |}.
Proof.
  assert (Hm : maps {| cells := [7]; maps := [∅] |} !! 0%nat = Some ∅) by reflexivity.
  split; [exact Hm|].
  exact (BenchmarkAssignToMap_leaks_a_cell_per_call 2 _ 0%nat ∅ Hm).
Defined.

Example assignToMap_nil_map (st : map_state) : assignToMap st None = NilMapPanic.
Proof. reflexivity. Qed.

Lemma blocked_stays_blocked (n i : nat) :
  for_range
    (fun st _ =>
       match st with
       | Completes ch => bench_send_recv ch
       | Blocks => Ret Blocks
       end)
    i n Blocks = Ret Blocks.
Proof. revert i. induction n as [|n IH]; intros i; [reflexivity|]. cbn. apply IH. Qed.

(** X8.  [BenchmarkSendToChannel] never blocks: on an open, empty channel
    with a buffer, as the benchmark makes it, any number of rounds of
    [sendToChannel(ch); <-ch] go through and leave the channel empty.  On a
    channel without buffer the first send already blocks. *)
Theorem BenchmarkSendToChannel_never_blocks (n size : nat) :
  BenchmarkSendToChannel n = Ret (Completes (Some (Hchan 1 [] 0 false))) /\
  BenchmarkSendToChannel_from n (Some (Hchan (S size) [] 0 false))
    = Ret (Completes (Some (Hchan (S size) [] 0 false))) /\
  BenchmarkSendToChannel_from (S n) (Some (Hchan 0 [] 0 false)) = Ret Blocks.
Proof.
  assert (Hgo : forall size k i,
    for_range
      (fun st _ =>
         match st with
         | Completes ch => bench_send_recv ch
         | Blocks => Ret Blocks
         end)
      i k (Completes (Some (Hchan (S size) [] 0 false)))
    = Ret (Completes (Some (Hchan (S size) [] 0 false)))).
  { intros sz k. induction k as [|k IH]; intros i; [reflexivity|].
    cbn [for_range]. rewrite bench_send_recv_empty. cbn [bind]. apply IH. }
  split; [apply Hgo|]. split; [apply Hgo|].
  unfold BenchmarkSendToChannel_from. cbn [for_range].
  change (bench_send_recv (Some (Hchan 0 [] 0 false))) with
    (Ret (@Blocks (option hchan))).
  cbn [bind]. apply blocked_stays_blocked.
Qed.

End FunctionsMore.

(** ** More about keep_on_stack.go: the pure examples, copies, the buffer and the pool *)

Module KeepOnStackMore.
Import Go GoFacts Functions FunctionsFacts FunctionsMore KeepOnStack KeepOnStackFacts.

(** *** 64-bit arithmetic *)

Lemma wrap64_small (z : Z) : - 2 ^ 63 <= z < 2 ^ 63 -> wrap64 z = z.
Proof. intros Hz. unfold wrap64. rewrite Z.mod_small; lia. Qed.

Lemma wrap64_add_l (a b : Z) : wrap64 (wrap64 a + b) = wrap64 (a + b).
Proof.
  unfold wrap64. f_equal.
  replace ((a + 2 ^ 63) mod 2 ^ 64 - 2 ^ 63 + b + 2 ^ 63)
    with ((a + 2 ^ 63) mod 2 ^ 64 + b) by lia.
  rewrite Zplus_mod_idemp_l. f_equal. lia.
Qed.

Lemma wrap64_range (z : Z) : - 2 ^ 63 <= wrap64 z < 2 ^ 63.
Proof.
  unfold wrap64. pose proof (Z.mod_pos_bound (z + 2 ^ 63) (2 ^ 64)). lia.
Qed.

Lemma directValueAccess_from (data : list Z) (a : Z) :
  foldl (fun sum v => add64 sum v) (wrap64 a) data = wrap64 (a + foldr Z.add 0 data).
Proof.
  revert a. induction data as [|x data IH]; intros a.
  - cbn. by rewrite Z.add_0_r.
  - cbn [foldl foldr]. unfold add64 at 2. rewrite wrap64_add_l, IH.
    f_equal. lia.
Qed.

(** X9.  [directValueAccess] returns the sum of the elements reduced to
    64 bits: it lies in the range of [int], it is congruent to the sum
    modulo 2^64, and it is the sum itself whenever the sum is in that
    range. *)
Theorem directValueAccess_is_wrapped_sum (data : list Z) :
  - 2 ^ 63 <= directValueAccess data < 2 ^ 63 /\
  (directValueAccess data - foldr Z.add 0 data) mod 2 ^ 64 = 0 /\
  directValueAccess data
    = (if (- 2 ^ 63 <=? foldr Z.add 0 data) && (foldr Z.add 0 data <? 2 ^ 63)
       then foldr Z.add 0 data else wrap64 (foldr Z.add 0 data)).
Proof.
  assert (Hsum : directValueAccess data = wrap64 (foldr Z.add 0 data)).
  { unfold directValueAccess. change 0 with (wrap64 0) at 1.
    by rewrite directValueAccess_from. }
  split; [rewrite Hsum; apply wrap64_range|]. split.
  - rewrite Hsum. unfold wrap64.
    replace ((foldr Z.add 0 data + 2 ^ 63) mod 2 ^ 64 - 2 ^ 63 - foldr Z.add 0 data)
      with ((foldr Z.add 0 data + 2 ^ 63) mod 2 ^ 64 - (foldr Z.add 0 data + 2 ^ 63))
      by lia.
    rewrite Zminus_mod_idemp_l, Z.sub_diag. reflexivity.
  - destruct (Z.leb_spec (- 2 ^ 63) (foldr Z.add 0 data));
      destruct (Z.ltb_spec (foldr Z.add 0 data) (2 ^ 63)); cbn [andb];
      try exact Hsum.
    rewrite Hsum. apply wrap64_small. lia.
Qed.

Example directValueAccess_benchmark : directValueAccess [1; 2; 3; 4; 5] = 15.
Proof. reflexivity. Qed.

Example directValueAccess_overflow :
  directValueAccess [2 ^ 63 - 1; 1; 0; 0; 0] = - 2 ^ 63.
Proof. reflexivity. Qed.



(** X11.  [processValueSemantics] returns the array with every element
    doubled as [specificTypeProcessing] doubles it, in the same order. *)
Theorem processValueSemantics_doubles (data : list Z) :
  length data = 100%nat ->
  processValueSemantics data = Ret (specificTypeProcessing <$> data).
Proof.
  intros Hlen. unfold processValueSemantics.
  edestruct (for_range_inv
    (fun data i =>
       v ← array_get data i;
       array_set data i (mul64 v 2))
    (fun j d => d = (specificTypeProcessing <$> take j data) ++ drop j data)
    100 0%nat data) as (d & Hloop & Hd).
  - intros j d0 [_ Hj] ->. rewrite Nat.add_0_l in Hj.
    destruct (lookup_lt_is_Some_2 data j) as [v Hv]; [lia|].
    assert (Hp : length (specificTypeProcessing <$> take j data) = j)
      by (rewrite length_fmap, length_take; lia).
    unfold array_get.
    rewrite lookup_app_r, Hp, Nat.sub_diag, lookup_drop, Nat.add_0_r, Hv by lia.
    rewrite bind_Ret. unfold array_set.
    rewrite length_app, Hp, length_drop.
    destruct (Nat.ltb_spec j (j + (length data - j))); [|lia].
    eexists. split; [reflexivity|].
    rewrite (take_S_r data j v Hv), fmap_app. cbn [fmap list_fmap].
    by apply insert_after_prefix; [|lia].
  - by rewrite take_0, drop_0.
  - rewrite Hloop, Hd. f_equal.
    rewrite Nat.add_0_l, take_ge, drop_ge by lia. apply app_nil_r.
Qed.

Lemma processValueSemantics_doubles_witness :
  length (Z.of_nat <$> seq 0 100) = 100%nat /\
  processValueSemantics (Z.of_nat <$> seq 0 100)
  = Ret (specificTypeProcessing <$> (Z.of_nat <$> seq 0 100)).
Proof.
  assert (Hlen : length (Z.of_nat <$> seq 0 100) = 100%nat)
    by (rewrite length_fmap; apply length_seq).
  split; [exact Hlen|]. exact (processValueSemantics_doubles _ Hlen).
Defined.

(** *** The buffer processor: where the bytes go *)

Lemma array_rewritten_trans {A : Type} (a : nat) (h1 h2 h3 : heap A) :
  array_rewritten a h1 h2 -> array_rewritten a h2 h3 -> array_rewritten a h1 h3.
Proof. intros H12 (Y & -> & HY). by apply array_rewritten_insert. Qed.

Lemma array_rewritten_read {A : Type} (a : nat) (h h' : heap A) (s : slice) :
  array_rewritten a h h' -> s_arr s <> a -> slice_read h' s = slice_read h s.
Proof.
  intros Hrw Hne. unfold slice_read.
  by rewrite (array_rewritten_other a (s_arr s) h h' Hrw).
Qed.

(** The loop of [ProcessData] writes the buffer's array only. *)
Lemma ProcessData_loop_rewrites (st1 st2 : bp_state) (l : nat) (b : slice) :
  procs st1 !! l = Some {| buffer := b |} ->
  for_range
    (fun st i =>
       b ← load_buffer st (Some l);
       v ← slice_get (bytes st) b i;
       h ← slice_set (bytes st) b i (byte_xor v xff);
       Ret {| bytes := h; procs := procs st |})
    0 (s_len b) st1 = Ret st2 ->
  procs st2 = procs st1 /\
  array_rewritten (s_arr b) (bytes st1) (bytes st2).
Proof.
  intros Hb Hloop.
  eapply (for_range_preserves _
            (fun st => procs st = procs st1 /\
                       array_rewritten (s_arr b) (bytes st1) (bytes st)))
    in Hloop; [exact Hloop| |].
  - intros j a a' Hbody [Hp Hrw].
    rewrite (load_buffer_Ret a l b), bind_Ret in Hbody by (by rewrite Hp).
    destruct (slice_get (bytes a) b j) as [v|] eqn:Hget; [|discriminate Hbody].
    rewrite bind_Ret in Hbody.
    destruct (slice_set (bytes a) b j (byte_xor v xff)) as [h|] eqn:Hset;
      [|discriminate Hbody].
    rewrite bind_Ret in Hbody. injection Hbody as <-.
    split; [exact Hp|]. cbn [bytes].
    destruct (slice_set_rewrites _ _ _ _ _ Hset) as (Y & -> & HY).
    by apply array_rewritten_insert.
  - split; [reflexivity|]. apply array_rewritten_refl.
Qed.

(** Everything a call of [ProcessData] does: besides what
    [ProcessData_spec] says, either the input fits the buffer and only the
    buffer's array is written, or it does not and the result is a new array
    at the end of the heap. *)
Lemma ProcessData_effect (slack : nat -> nat -> nat)
    (st : bp_state) (l : nat) (b data : slice) :
  procs st !! l = Some {| buffer := b |} ->
  slice_valid (bytes st) b -> slice_valid (bytes st) data ->
  exists st' r,
    ProcessData slack st (Some l) data = Ret (st', r) /\
    procs st' = <[l := {| buffer := r |}]> (procs st) /\
    slice_valid (bytes st') r /\
    s_len r = s_len data /\
    slice_read (bytes st') r
      = (fun v => byte_xor v xff) <$> slice_read (bytes st) data /\
    (((s_len data <= s_cap b)%nat /\
      r = Slice (s_arr b) (s_off b) (s_len data) (s_cap b) /\
      array_rewritten (s_arr b) (bytes st) (bytes st')) \/
     ((s_cap b < s_len data)%nat /\
      exists X, bytes st' = bytes st ++ [X] /\
                r = Slice (length (bytes st)) 0 (s_len data) (length X))).
Proof.
  intros Hb Hvb Hvd.
  destruct (ProcessData_spec slack st l b data Hb Hvb Hvd)
    as (st' & r & Hcall & Hread & Hlen & Hprocs & Hext & Hvr).
  exists st', r. split; [exact Hcall|]. split; [exact Hprocs|].
  split; [exact Hvr|]. split; [exact Hlen|]. split; [exact Hread|].
  assert (Hl : (l < length (procs st))%nat) by (by eapply lookup_lt_Some).
  assert (Hlend : length (slice_read (bytes st) data) = s_len data)
    by (by apply length_slice_read).
  destruct Hvb as [Hbl Hbc].
  set (b0 := Slice (s_arr b) (s_off b) 0 (s_cap b)).
  set (st0 := {| bytes := bytes st; procs := <[l := {| buffer := b0 |}]> (procs st) |}).
  unfold ProcessData in Hcall.
  rewrite (load_buffer_Ret st l b Hb), bind_Ret in Hcall.
  unfold reslice_to in Hcall.
  destruct (Z.leb_spec 0 (Z.of_nat (s_cap b))); [|lia].
  change (0 <=? 0) with true in Hcall. cbn [andb] in Hcall.
  change (Z.to_nat 0) with 0%nat in Hcall. fold b0 in Hcall.
  rewrite bind_Ret, (store_buffer_Ret st l b0 Hl), bind_Ret in Hcall. fold st0 in Hcall.
  rewrite (load_buffer_Ret st0 l b0), bind_Ret in Hcall
    by (cbn; by apply list_lookup_insert_eq).
  destruct (append x00 slack (bytes st0) b0 (slice_read (bytes st0) data))
    as [h b1] eqn:Happ.
  rewrite (store_buffer_Ret {| bytes := h; procs := procs st0 |} l b1), bind_Ret in Hcall
    by (cbn; by rewrite length_insert).
  cbn [bytes procs] in Hcall.
  set (st1 := {| bytes := h; procs := <[l := {| buffer := b1 |}]> (procs st0) |}) in Hcall.
  assert (Hb1 : procs st1 !! l = Some {| buffer := b1 |}).
  { cbn. apply list_lookup_insert_eq. by rewrite length_insert. }
  rewrite (load_buffer_Ret st1 l b1 Hb1), bind_Ret in Hcall.
  match type of Hcall with
  | (?loop ≫= _) = _ => destruct loop as [st2|] eqn:Hloop; [|discriminate Hcall]
  end.
  rewrite bind_Ret in Hcall.
  destruct (ProcessData_loop_rewrites st1 st2 l b1 Hb1 Hloop) as [Hst2 Hrw].
  rewrite (load_buffer_Ret st2 l b1), bind_Ret in Hcall by (rewrite Hst2; exact Hb1).
  injection Hcall as <- <-.
  change (bytes st1) with h in Hrw.
  unfold append in Happ. change (bytes st0) with (bytes st) in Happ.
  cbn [s_len s_cap s_arr s_off b0] in Happ. rewrite Hlend, Nat.add_0_l in Happ.
  destruct (Nat.leb_spec (s_len data) (s_cap b)) as [Hfits|Hgrows];
    injection Happ as <- <-.
  - left. split; [exact Hfits|]. split; [reflexivity|].
    eapply array_rewritten_trans; [|exact Hrw].
    eexists. split; [reflexivity|].
    unfold list_write. rewrite !length_app, length_take, length_drop. lia.
  - right. split; [exact Hgrows|].
    destruct Hrw as (X & HX & HlenX). cbn [s_arr] in HX, HlenX.
    rewrite array_of_app_new in HlenX.
    rewrite insert_app_r_alt, Nat.sub_diag in HX by lia. cbn [insert list_insert] in HX.
    exists X. split; [exact HX|].
    f_equal. rewrite HlenX, length_app, length_replicate, Hlend. lia.
Qed.

(** X12.  When the input fits the buffer's capacity, [ProcessData] does
    not allocate: the result is the buffer's own array, offset and capacity
    with the length of the input, and no other array is written. *)
Theorem ProcessData_in_place (slack : nat -> nat -> nat)
    (st : bp_state) (l : nat) (b data : slice) :
  procs st !! l = Some {| buffer := b |} ->
  slice_valid (bytes st) b -> slice_valid (bytes st) data ->
  (s_len data <= s_cap b)%nat ->
  exists st',
    ProcessData slack st (Some l) data
      = Ret (st', Slice (s_arr b) (s_off b) (s_len data) (s_cap b)) /\
    array_rewritten (s_arr b) (bytes st) (bytes st').
Proof.
  intros Hb Hvb Hvd Hfits.
  destruct (ProcessData_effect slack st l b data Hb Hvb Hvd)
    as (st' & r & Hcall & _ & _ & _ & _ & [(_ & -> & Hrw)|(Hgrows & _)]); [|lia].
  exists st'. split; [exact Hcall|exact Hrw].
Qed.

Lemma ProcessData_in_place_witness :
  (procs fresh_processor !! 0%nat = Some {| buffer := Slice 1 0 0 1024 |} /\
   slice_valid (bytes fresh_processor) (Slice 1 0 0 1024) /\
   slice_valid (bytes fresh_processor) (Slice 0 0 3 3) /\
   (s_len (Slice 0 0 3 3) <= s_cap (Slice 1 0 0 1024))%nat) /\
  exists st',
    ProcessData (fun _ _ => 0%nat) fresh_processor (Some 0%nat) (Slice 0 0 3 3)
      = Ret (st', Slice (s_arr (Slice 1 0 0 1024)) (s_off (Slice 1 0 0 1024))
                    (s_len (Slice 0 0 3 3)) (s_cap (Slice 1 0 0 1024))) /\
    array_rewritten (s_arr (Slice 1 0 0 1024)) (bytes fresh_processor) (bytes st').
Proof.
  assert (Hb : procs fresh_processor !! 0%nat = Some {| buffer := Slice 1 0 0 1024 |})
    by reflexivity.
  assert (Hvb : slice_valid (bytes fresh_processor) (Slice 1 0 0 1024))
    by (split; cbn; lia).
  assert (Hvd : slice_valid (bytes fresh_processor) (Slice 0 0 3 3))
    by (split; cbn; lia).
  assert (Hfits : (s_len (Slice 0 0 3 3) <= s_cap (Slice 1 0 0 1024))%nat)
    by (cbn; lia).
  split; [done|].
  exact (ProcessData_in_place (fun _ _ => 0%nat) fresh_processor 0%nat _ _
           Hb Hvb Hvd Hfits).
Defined.

(** X13.  When the input is longer than the buffer's capacity,
    [ProcessData] leaves every existing array as it is, the old buffer
    included, and returns a slice at the start of one new array, which
    begins with the flipped bytes of the input. *)
Theorem ProcessData_moves_when_short (slack : nat -> nat -> nat)
    (st : bp_state) (l : nat) (b data : slice) :
  procs st !! l = Some {| buffer := b |} ->
  slice_valid (bytes st) b -> slice_valid (bytes st) data ->
  (s_cap b < s_len data)%nat ->
  exists st' X,
    ProcessData slack st (Some l) data
      = Ret (st', Slice (length (bytes st)) 0 (s_len data) (length X)) /\
    bytes st' = bytes st ++ [X] /\
    take (s_len data) X = (fun v => byte_xor v xff) <$> slice_read (bytes st) data.
Proof.
  intros Hb Hvb Hvd Hshort.
  destruct (ProcessData_effect slack st l b data Hb Hvb Hvd)
    as (st' & r & Hcall & _ & _ & _ & Hread & [(Hfits & _)|(_ & X & HX & ->)]); [lia|].
  exists st', X. split; [exact Hcall|]. split; [exact HX|].
  rewrite <- Hread. unfold slice_read. cbn [s_arr s_off s_len].
  by rewrite HX, array_of_app_new, drop_0.
Qed.

Lemma ProcessData_moves_when_short_witness :
  (procs used_processor !! 0%nat = Some {| buffer := Slice 0 0 2 2 |} /\
   slice_valid (bytes used_processor) (Slice 0 0 2 2) /\
   slice_valid (bytes used_processor) (Slice 1 1 3 3) /\
   (s_cap (Slice 0 0 2 2) < s_len (Slice 1 1 3 3))%nat) /\
  exists st' X,
    ProcessData (fun c _ => c) used_processor (Some 0%nat) (Slice 1 1 3 3)
      = Ret (st', Slice (length (bytes used_processor)) 0 (s_len (Slice 1 1 3 3))
                    (length X)) /\
    bytes st' = bytes used_processor ++ [X] /\
    take (s_len (Slice 1 1 3 3)) X
      = (fun v => byte_xor v xff) <$> slice_read (bytes used_processor) (Slice 1 1 3 3).
Proof.
  assert (Hb : procs used_processor !! 0%nat = Some {| buffer := Slice 0 0 2 2 |})
    by reflexivity.
  assert (Hvb : slice_valid (bytes used_processor) (Slice 0 0 2 2))
    by (split; cbn; lia).
  assert (Hvd : slice_valid (bytes used_processor) (Slice 1 1 3 3))
    by (split; cbn; lia).
  assert (Hshort : (s_cap (Slice 0 0 2 2) < s_len (Slice 1 1 3 3))%nat) by (cbn; lia).
  split; [done|].
  exact (ProcessData_moves_when_short (fun c _ => c) used_processor 0%nat _ _
           Hb Hvb Hvd Hshort).
Defined.

Example ProcessData_moves_run :
  ProcessData (fun c _ => c) used_processor (Some 0%nat) (Slice 1 1 3 3)
  = Ret ({| bytes := [[xaa; xbb]; [x09; x01; x02; x03]; [xfe; xfd; xfc; x00; x00]];
            procs := [{| buffer := Slice 2 0 3 5 |}] |},
         Slice 2 0 3 5).
Proof. reflexivity. Qed.

(** An input that has elements lies in an array of the heap. *)
Lemma slice_valid_in_heap {A : Type} (h : heap A) (s : slice) :
  slice_valid h s -> (0 < s_len s)%nat -> (s_arr s < length h)%nat.
Proof.
  intros [Hl Hc] Hpos. destruct (decide (s_arr s < length h)%nat) as [|Hge]; [done|].
  rewrite array_of_ge in Hc by lia. cbn in Hc. lia.
Qed.

Lemma slice_read_app_old {A : Type} (h : heap A) (X : list A) (s : slice) :
  slice_valid h s -> slice_read (h ++ [X]) s = slice_read h s.
Proof.
  intros Hv. destruct (decide (0 < s_len s)%nat) as [Hpos|Hzero].
  - pose proof (slice_valid_in_heap h s Hv Hpos) as Hin.
    unfold slice_read, array_of. by rewrite lookup_app_l.
  - unfold slice_read. replace (s_len s) with 0%nat by lia. reflexivity.
Qed.

(** One call with an input that does not lie in the buffer's array: the
    input is still there afterwards, apart from the buffer's array, and the
    next call will not have to allocate. *)
Lemma ProcessData_round (slack : nat -> nat -> nat)
    (st : bp_state) (l : nat) (b data : slice) :
  procs st !! l = Some {| buffer := b |} ->
  slice_valid (bytes st) b -> slice_valid (bytes st) data ->
  s_arr data <> s_arr b \/ (s_cap b < s_len data)%nat ->
  exists st' r,
    ProcessData slack st (Some l) data = Ret (st', r) /\
    procs st' !! l = Some {| buffer := r |} /\
    slice_valid (bytes st') r /\
    slice_valid (bytes st') data /\
    s_arr data <> s_arr r /\
    (s_len data <= s_cap r)%nat /\
    slice_read (bytes st') data = slice_read (bytes st) data /\
    slice_read (bytes st') r
      = (fun v => byte_xor v xff) <$> slice_read (bytes st) data /\
    (length (bytes st) <= length (bytes st') <= length (bytes st) + 1)%nat /\
    ((s_len data <= s_cap b)%nat -> length (bytes st') = length (bytes st)).
Proof.
  intros Hb Hvb Hvd Hapart.
  assert (Hl : (l < length (procs st))%nat) by (by eapply lookup_lt_Some).
  destruct (ProcessData_effect slack st l b data Hb Hvb Hvd)
    as (st' & r & Hcall & Hprocs & Hvr & Hlen & Hread & Hcase).
  exists st', r. split; [exact Hcall|].
  split; [rewrite Hprocs; by apply list_lookup_insert_eq|].
  split; [exact Hvr|].
  assert (Hcap : (s_len data <= s_cap r)%nat) by (destruct Hvr; lia).
  destruct Hcase as [(Hfits & -> & Hrw)|(Hgrows & X & HX & ->)].
  - destruct Hapart as [Hne|?]; [|lia].
    split; [exact (slice_valid_extends _ _ _ (array_rewritten_extends _ _ _ Hrw) Hvd)|].
    split; [exact Hne|]. split; [exact Hcap|].
    split; [by apply (array_rewritten_read (s_arr b))|]. split; [exact Hread|].
    rewrite (array_rewritten_length _ _ _ Hrw). split; [lia|reflexivity].
  - pose proof (slice_valid_in_heap _ _ Hvd ltac:(lia)) as Hin.
    rewrite HX. split; [exact (slice_valid_extends _ _ _ (heap_extends_app _ _) Hvd)|].
    split; [cbn [s_arr]; lia|]. split; [exact Hcap|].
    split; [by apply slice_read_app_old|].
    split; [rewrite <- HX; exact Hread|].
    rewrite length_app. cbn [length]. split; [lia|lia].
Qed.

(** X14.  [ProcessData] does not change its input as long as the input does
    not lie in the buffer's array or is longer than the buffer's capacity:
    after the call the input slice reads as before. *)
Theorem ProcessData_keeps_input (slack : nat -> nat -> nat)
    (st : bp_state) (l : nat) (b data : slice) :
  procs st !! l = Some {| buffer := b |} ->
  slice_valid (bytes st) b -> slice_valid (bytes st) data ->
  s_arr data <> s_arr b \/ (s_cap b < s_len data)%nat ->
  exists st' r,
    ProcessData slack st (Some l) data = Ret (st', r) /\
    slice_read (bytes st') data = slice_read (bytes st) data.
Proof.
  intros Hb Hvb Hvd Hapart.
  destruct (ProcessData_round slack st l b data Hb Hvb Hvd Hapart)
    as (st' & r & Hcall & _ & _ & _ & _ & _ & Hsame & _).
  exists st', r. split; [exact Hcall|exact Hsame].
Qed.

Lemma ProcessData_keeps_input_witness :
  (procs fresh_processor !! 0%nat = Some {| buffer := Slice 1 0 0 1024 |} /\
   slice_valid (bytes fresh_processor) (Slice 1 0 0 1024) /\
   slice_valid (bytes fresh_processor) (Slice 0 0 3 3) /\
   (s_arr (Slice 0 0 3 3) <> s_arr (Slice 1 0 0 1024) \/
    (s_cap (Slice 1 0 0 1024) < s_len (Slice 0 0 3 3))%nat)) /\
  exists st' r,
    ProcessData (fun _ _ => 0%nat) fresh_processor (Some 0%nat) (Slice 0 0 3 3)
      = Ret (st', r) /\
    slice_read (bytes st') (Slice 0 0 3 3)
      = slice_read (bytes fresh_processor) (Slice 0 0 3 3).
Proof.
  assert (Hb : procs fresh_processor !! 0%nat = Some {| buffer := Slice 1 0 0 1024 |})
    by reflexivity.
  assert (Hvb : slice_valid (bytes fresh_processor) (Slice 1 0 0 1024))
    by (split; cbn; lia).
  assert (Hvd : slice_valid (bytes fresh_processor) (Slice 0 0 3 3))
    by (split; cbn; lia).
  assert (Hapart : s_arr (Slice 0 0 3 3) <> s_arr (Slice 1 0 0 1024) \/
                   (s_cap (Slice 1 0 0 1024) < s_len (Slice 0 0 3 3))%nat)
    by (left; cbn; lia).
  split; [done|].
  exact (ProcessData_keeps_input (fun _ _ => 0%nat) fresh_processor 0%nat _ _
           Hb Hvb Hvd Hapart).
Defined.

(** When the input is the result of the call before, it lies in the
    buffer, and the call overwrites it: what read FE FD FC reads 01 02 03. *)
Example ProcessData_overwrites_aliased_input :
  exists st1 r1 st2 r2,
    ProcessData (fun _ _ => 0%nat) fresh_processor (Some 0%nat) (Slice 0 0 3 3)
      = Ret (st1, r1) /\
    ProcessData (fun _ _ => 0%nat) st1 (Some 0%nat) r1 = Ret (st2, r2) /\
    slice_read (bytes st1) r1 = [xfe; xfd; xfc] /\
    slice_read (bytes st2) r1 = [x01; x02; x03].
Proof.
  do 4 eexists.
  split; [vm_compute; reflexivity|].
  split; [vm_compute; reflexivity|].
  split; vm_compute; reflexivity.
Qed.

(** X15.  [BenchmarkBufferProcessor]'s loop: one or more calls of
    [ProcessData] on the same processor with the same input, the input lying
    outside the buffer's array.  Every call returns; in the end the result
    is the processor's buffer and holds the flipped input, the input is
    unchanged, and at most one array has been allocated over all the calls. *)
Theorem BenchmarkBufferProcessor_allocates_at_most_once (slack : nat -> nat -> nat)
    (n : nat) (st : bp_state) (l : nat) (b data : slice) :
  procs st !! l = Some {| buffer := b |} ->
  slice_valid (bytes st) b -> slice_valid (bytes st) data ->
  s_arr data <> s_arr b ->
  exists st' r,
    BenchmarkBufferProcessor_loop slack (S n) st (Some l) data = Ret (st', r) /\
    load_buffer st' (Some l) = Ret r /\
    slice_read (bytes st') r
      = (fun v => byte_xor v xff) <$> slice_read (bytes st) data /\
    slice_read (bytes st') data = slice_read (bytes st) data /\
    (length (bytes st') <= length (bytes st) + 1)%nat.
Proof.
  intros Hb Hvb Hvd Hne.
  destruct (ProcessData_round slack st l b data Hb Hvb Hvd (or_introl Hne))
    as (st1 & r1 & Hcall & Hb1 & Hvr1 & Hvd1 & Hne1 & Hcap1 & Hsame1 & Hread1 & Hlen1 & _).
  edestruct (for_range_inv
    (fun '(st, _) (_ : nat) => ProcessData slack st (Some l) data)
    (fun _ p =>
       procs (fst p) !! l = Some {| buffer := snd p |} /\
       slice_valid (bytes (fst p)) (snd p) /\
       slice_valid (bytes (fst p)) data /\
       s_arr data <> s_arr (snd p) /\
       (s_len data <= s_cap (snd p))%nat /\
       slice_read (bytes (fst p)) data = slice_read (bytes st) data /\
       slice_read (bytes (fst p)) (snd p)
         = (fun v => byte_xor v xff) <$> slice_read (bytes st) data /\
       length (bytes (fst p)) = length (bytes st1))
    n 1%nat (st1, r1))
    as ([st' r] & Hloop & Hb' & _ & _ & _ & _ & Hsame' & Hread' & Hlen').
  - intros j [s r0] _ (Hbs & Hvrs & Hvds & Hnes & Hcaps & Hsames & Hreads & Hlens).
    cbn [fst snd] in *.
    destruct (ProcessData_round slack s l r0 data Hbs Hvrs Hvds (or_introl Hnes))
      as (s' & r' & Hcall' & Hb' & Hvr' & Hvd' & Hne' & Hcap' & Hsame' & Hread' & _ & Hfit).
    exists (s', r'). split; [exact Hcall'|]. cbn [fst snd].
    split; [exact Hb'|]. split; [exact Hvr'|]. split; [exact Hvd'|].
    split; [exact Hne'|]. split; [exact Hcap'|].
    split; [by rewrite Hsame'|]. split; [by rewrite Hread', Hsames|].
    by rewrite (Hfit Hcaps).
  - cbn [fst snd]. split; [exact Hb1|]. split; [exact Hvr1|]. split; [exact Hvd1|].
    split; [exact Hne1|]. split; [exact Hcap1|]. split; [exact Hsame1|].
    split; [exact Hread1|reflexivity].
  - cbn [fst snd] in *. exists st', r.
    unfold BenchmarkBufferProcessor_loop. cbn [for_range]. rewrite Hcall. cbn [bind].
    split; [exact Hloop|]. split; [by apply load_buffer_Ret|].
    split; [exact Hread'|]. split; [exact Hsame'|]. lia.
Qed.

Lemma BenchmarkBufferProcessor_allocates_at_most_once_witness :
  (procs fresh_processor !! 0%nat = Some {| buffer := Slice 1 0 0 1024 |} /\
   slice_valid (bytes fresh_processor) (Slice 1 0 0 1024) /\
   slice_valid (bytes fresh_processor) (Slice 0 0 3 3) /\
   s_arr (Slice 0 0 3 3) <> s_arr (Slice 1 0 0 1024)) /\
  exists st' r,
    BenchmarkBufferProcessor_loop (fun _ _ => 0%nat) 3 fresh_processor (Some 0%nat)
      (Slice 0 0 3 3) = Ret (st', r) /\
    load_buffer st' (Some 0%nat) = Ret r /\
    slice_read (bytes st') r
      = (fun v => byte_xor v xff) <$> slice_read (bytes fresh_processor) (Slice 0 0 3 3) /\
    slice_read (bytes st') (Slice 0 0 3 3)
      = slice_read (bytes fresh_processor) (Slice 0 0 3 3) /\
    (length (bytes st') <= length (bytes fresh_processor) + 1)%nat.
Proof.
  assert (Hb : procs fresh_processor !! 0%nat = Some {| buffer := Slice 1 0 0 1024 |})
    by reflexivity.
  assert (Hvb : slice_valid (bytes fresh_processor) (Slice 1 0 0 1024))
    by (split; cbn; lia).
  assert (Hvd : slice_valid (bytes fresh_processor) (Slice 0 0 3 3))
    by (split; cbn; lia).
  assert (Hne : s_arr (Slice 0 0 3 3) <> s_arr (Slice 1 0 0 1024)) by (cbn; lia).
  split; [done|].
  exact (BenchmarkBufferProcessor_allocates_at_most_once (fun _ _ => 0%nat) 2
           fresh_processor 0%nat _ _ Hb Hvb Hvd Hne).
Defined.

Lemma NewBufferProcessor_Ret (st : bp_state) :
  NewBufferProcessor st
  = Ret ({| bytes := bytes st ++ [replicate 1024 x00];
            procs := procs st ++ [{| buffer := Slice (length (bytes st)) 0 0 1024 |}] |},
         Some (length (procs st))).
Proof.
  unfold NewBufferProcessor.
  rewrite (make_slice_Ret x00 1 (bytes st) 0 1024) by (unfold maxAlloc; lia).
  reflexivity.
Qed.

(** X16.  A processor made by [NewBufferProcessor] takes any input of up to
    1024 bytes without allocating again: after [NewBufferProcessor] and one
    [ProcessData] the heap holds exactly one array more than before, the
    processor's buffer, and the result lies in it. *)
Theorem NewBufferProcessor_buffer_suffices (slack : nat -> nat -> nat)
    (st : bp_state) (data : slice) :
  slice_valid (bytes st) data -> (s_len data <= 1024)%nat ->
  exists st1 bp st2,
    NewBufferProcessor st = Ret (st1, bp) /\
    ProcessData slack st1 bp data
      = Ret (st2, Slice (length (bytes st)) 0 (s_len data) 1024) /\
    length (bytes st2) = (length (bytes st) + 1)%nat /\
    slice_read (bytes st2) (Slice (length (bytes st)) 0 (s_len data) 1024)
      = (fun v => byte_xor v xff) <$> slice_read (bytes st) data.
Proof.
  intros Hvd Hlen.
  set (st1 := {| bytes := bytes st ++ [replicate 1024 x00];
                 procs := procs st ++ [{| buffer := Slice (length (bytes st)) 0 0 1024 |}] |}).
  assert (Hb : procs st1 !! length (procs st)
               = Some {| buffer := Slice (length (bytes st)) 0 0 1024 |})
    by (apply list_lookup_middle; reflexivity).
  destruct (make_slice_new x00 (bytes st) 0 1024 (Nat.le_0_l _)) as (Hvb & _ & Hext).
  pose proof (slice_valid_extends _ _ _ Hext Hvd) as Hvd1.
  destruct (ProcessData_effect slack st1 (length (procs st)) _ data Hb Hvb Hvd1)
    as (st2 & r & Hcall & _ & _ & _ & Hread & [(_ & -> & Hrw)|(Hgrows & _)]);
    [|cbn [s_cap] in Hgrows; lia].
  exists st1, (Some (length (procs st))), st2.
  split; [apply NewBufferProcessor_Ret|]. split; [exact Hcall|].
  split.
  - rewrite (array_rewritten_length _ _ _ Hrw). cbn [bytes st1].
    rewrite length_app. reflexivity.
  - cbn [s_arr s_off s_cap] in Hread. rewrite Hread. f_equal.
    by apply slice_read_app_old.
Qed.

Lemma NewBufferProcessor_buffer_suffices_witness :
  (slice_valid (bytes {| bytes := [[x68; x69]]; procs := [] |}) (Slice 0 0 2 2) /\
   (s_len (Slice 0 0 2 2) <= 1024)%nat) /\
  exists st1 bp st2,
    NewBufferProcessor {| bytes := [[x68; x69]]; procs := [] |} = Ret (st1, bp) /\
    ProcessData (fun _ _ => 0%nat) st1 bp (Slice 0 0 2 2)
      = Ret (st2, Slice (length (bytes {| bytes := [[x68; x69]]; procs := [] |})) 0
                    (s_len (Slice 0 0 2 2)) 1024) /\
    length (bytes st2)
      = (length (bytes {| bytes := [[x68; x69]]; procs := [] |}) + 1)%nat /\
    slice_read (bytes st2)
      (Slice (length (bytes {| bytes := [[x68; x69]]; procs := [] |})) 0
         (s_len (Slice 0 0 2 2)) 1024)
    = (fun v => byte_xor v xff)
        <$> slice_read (bytes {| bytes := [[x68; x69]]; procs := [] |}) (Slice 0 0 2 2).
Proof.
  assert (Hvd : slice_valid (bytes {| bytes := [[x68; x69]]; procs := [] |})
                  (Slice 0 0 2 2)) by (split; cbn; lia).
  assert (Hlen : (s_len (Slice 0 0 2 2) <= 1024)%nat) by (cbn; lia).
  split; [done|].
  exact (NewBufferProcessor_buffer_suffices (fun _ _ => 0%nat) _ _ Hvd Hlen).
Defined.

(** X17.  [copyInsteadOfNew(src)] returns a slice over one new array that
    holds exactly the elements of [src], with length and capacity
    [len(src)]; the arrays that existed, [src]'s among them, are unchanged. *)
Theorem copyInsteadOfNew_copies (h : heap Z) (src : slice) :
  slice_valid h src -> 8 * Z.of_nat (s_len src) <= maxAlloc ->
  copyInsteadOfNew h src
  = Ret (h ++ [slice_read h src], Slice (length h) 0 (s_len src) (s_len src)).
Proof.
  intros Hv Hmax. unfold copyInsteadOfNew.
  rewrite make_slice_Ret by lia. rewrite Nat2Z.id, bind_Ret.
  unfold slice_copy. cbn [s_arr s_off s_len]. rewrite Nat.min_id.
  rewrite array_of_app_new, (slice_read_app_old h _ src Hv).
  pose proof (length_slice_read h src Hv) as Hlen.
  rewrite take_ge by lia.
  rewrite insert_app_r_alt, Nat.sub_diag by lia. cbn [insert list_insert].
  unfold list_write. rewrite take_0, Nat.add_0_l, drop_ge, app_nil_r
    by (rewrite length_replicate; lia).
  reflexivity.
Qed.

Lemma copyInsteadOfNew_copies_witness :
  (slice_valid [[1; 2; 3; 4]] (Slice 0 1 2 3) /\
   8 * Z.of_nat (s_len (Slice 0 1 2 3)) <= maxAlloc) /\
  copyInsteadOfNew [[1; 2; 3; 4]] (Slice 0 1 2 3)
  = Ret ([[1; 2; 3; 4]] ++ [slice_read [[1; 2; 3; 4]] (Slice 0 1 2 3)],
         Slice (length [[1; 2; 3; 4]]) 0 (s_len (Slice 0 1 2 3)) (s_len (Slice 0 1 2 3))).
Proof.
  assert (Hv : slice_valid [[1; 2; 3; 4]] (Slice 0 1 2 3)) by (split; cbn; lia).
  assert (Hm : 8 * Z.of_nat (s_len (Slice 0 1 2 3)) <= maxAlloc)
    by (unfold maxAlloc; cbn; lia).
  split; [done|].
  exact (copyInsteadOfNew_copies _ _ Hv Hm).
Defined.

(** *** The pool *)

(** X18.  An object handed to [returnToPool], if the pool keeps it and
    [Get] picks it, comes back from [useSyncPool] as the same pointer with
    its [data] zeroed; nothing is allocated and the pool is as before. *)
Theorem pool_round_trip (st : pool_state) (l : nat) :
  (l < length (objects st))%nat ->
  useSyncPool (Some 0%nat) (returnToPool true st (Some l))
  = Ret ({| objects := <[l := LargeStruct_zero]> (objects st); pooled := pooled st |},
         Some l).
Proof.
  intros Hl. unfold returnToPool, largeStructPool_Put, useSyncPool, largeStructPool_Get.
  cbn [pooled objects lookup list_lookup delete list_delete].
  by destruct (Nat.ltb_spec l (length (objects st))); [|lia].
Qed.

Lemma pool_round_trip_witness :
  (1 < length (objects stale_pool))%nat /\
  useSyncPool (Some 0%nat) (returnToPool true stale_pool (Some 1%nat))
  = Ret ({| objects := <[1%nat := LargeStruct_zero]> (objects stale_pool);
            pooled := pooled stale_pool |},
         Some 1%nat).
Proof.
  assert (Hl : (1 < length (objects stale_pool))%nat) by (cbn; lia).
  split; [exact Hl|]. exact (pool_round_trip _ 1%nat Hl).
Defined.

(** One call of [useSyncPool] on a well-formed pool, in full. *)
Lemma useSyncPool_step (pick : option nat) (st : pool_state) :
  pool_ok st = true ->
  exists st' l,
    useSyncPool pick st = Ret (st', Some l) /\
    pool_ok st' = true /\
    (l < length (objects st'))%nat /\
    (forall l', l' <> l -> objects st' !! l' = objects st !! l') /\
    (length (objects st) <= length (objects st') <= length (objects st) + 1)%nat /\
    (forall p, p ∈ pooled st' -> p ∈ pooled st) /\
    (forall i p, pick = Some i -> pooled st !! i = Some p ->
                 p = Some l /\ length (objects st') = length (objects st) /\
                 pooled st' = delete i (pooled st)).
Proof.
  intros Hok. unfold useSyncPool.
  assert (Hnew : exists st' l,
    (let '(st1, obj) := largeStructPool_New st in
     match obj with
     | Some l =>
         if (l <? length (objects st1))%nat
         then Ret ({| objects := <[l := LargeStruct_zero]> (objects st1);
                      pooled := pooled st1 |}, obj)
         else Panic NilDereference
     | None => Panic NilDereference
     end) = Ret (st', Some l) /\
    pool_ok st' = true /\
    (l < length (objects st'))%nat /\
    (forall l', l' <> l -> objects st' !! l' = objects st !! l') /\
    (length (objects st) <= length (objects st') <= length (objects st) + 1)%nat /\
    (forall p, p ∈ pooled st' -> p ∈ pooled st)).
  { unfold largeStructPool_New. cbn [objects pooled].
    rewrite length_app. cbn [length].
    destruct (Nat.ltb_spec (length (objects st)) (length (objects st) + 1)); [|lia].
    do 2 eexists. split; [reflexivity|]. cbn [objects pooled].
    rewrite length_insert, length_app. cbn [length].
    split; [|split; [lia|split; [|split; [lia|done]]]].
    - apply pool_ok_intro. intros p Hp.
      destruct (pool_ok_elem st p Hok Hp) as (l & -> & Hl).
      exists l. split; [done|]. rewrite length_insert, length_app. lia.
    - intros l' Hne. rewrite list_lookup_insert_ne by done.
      destruct (decide (l' < length (objects st))%nat) as [Hlt|Hge].
      + by rewrite lookup_app_l.
      + rewrite !lookup_ge_None_2; [done|lia|]. rewrite length_app. cbn. lia. }
  unfold largeStructPool_Get.
  destruct pick as [i|].
  - destruct (pooled st !! i) as [p|] eqn:Hi.
    + destruct (pool_ok_lookup st i p Hok Hi) as (l & -> & Hl).
      cbn [objects pooled].
      destruct (Nat.ltb_spec l (length (objects st))); [|lia].
      do 2 eexists. split; [reflexivity|]. cbn [objects pooled].
      rewrite length_insert.
      split; [|split; [lia|split; [|split; [lia|split]]]].
      * apply pool_ok_intro. intros p Hp.
        apply list_elem_of_delete_inv in Hp.
        destruct (pool_ok_elem st p Hok Hp) as (l' & -> & Hl').
        exists l'. split; [done|]. by rewrite length_insert.
      * intros l' Hne. by apply list_lookup_insert_ne.
      * intros p Hp. by eapply list_elem_of_delete_inv.
      * intros i' p' [= <-] Hp'. rewrite Hi in Hp'. injection Hp' as <-. done.
    + destruct Hnew as (st' & l & H1 & H2 & H3 & H4 & H5 & H6).
      exists st', l. do 6 (split; [assumption|]).
      intros i' p' [= <-] Hp'. congruence.
  - destruct Hnew as (st' & l & H1 & H2 & H3 & H4 & H5 & H6).
    exists st', l. do 6 (split; [assumption|]).
    intros i' p' Hpick. discriminate Hpick.
Qed.

(** X19.  [useSyncPool] changes at most the object it returns: every other
    object on the heap is as it was, and at most one object has been added. *)
Theorem useSyncPool_touches_one_object (pick : option nat) (st : pool_state) :
  pool_ok st = true ->
  exists st' l,
    useSyncPool pick st = Ret (st', Some l) /\
    (forall l', l' <> l -> objects st' !! l' = objects st !! l') /\
    (length (objects st) <= length (objects st') <= length (objects st) + 1)%nat.
Proof.
  intros Hok.
  destruct (useSyncPool_step pick st Hok) as (st' & l & Hcall & _ & _ & Hframe & Hlen & _).
  exists st', l. split; [exact Hcall|]. split; [exact Hframe|exact Hlen].
Qed.

Lemma useSyncPool_touches_one_object_witness :
  pool_ok stale_pool = true /\
  exists st' l,
    useSyncPool (Some 0%nat) stale_pool = Ret (st', Some l) /\
    (forall l', l' <> l -> objects st' !! l' = objects stale_pool !! l') /\
    (length (objects stale_pool) <= length (objects st')
     <= length (objects stale_pool) + 1)%nat.
Proof.
  split; [reflexivity|].
  apply useSyncPool_touches_one_object. reflexivity.
Defined.

(** X20.  [BenchmarkUseSyncPool]'s loop never panics, whatever the pool
    picks and keeps: started with a pool of objects, [n] rounds of
    [useSyncPool(); returnToPool(obj)] return, the pool still holds only
    objects, and at most [n] objects have been allocated. *)
Theorem BenchmarkUseSyncPool_returns
    (picks : nat -> option nat) (keeps : nat -> bool) (n : nat) (st : pool_state) :
  pool_ok st = true ->
  exists st',
    BenchmarkUseSyncPool_loop picks keeps n st = Ret st' /\
    pool_ok st' = true /\
    (length (objects st) <= length (objects st') <= length (objects st) + n)%nat.
Proof.
  intros Hok. unfold BenchmarkUseSyncPool_loop.
  edestruct (for_range_inv
    (fun st i =>
       '(st1, obj) ← useSyncPool (picks i) st;
       Ret (returnToPool (keeps i) st1 obj))
    (fun j st' =>
       pool_ok st' = true /\
       (length (objects st) <= length (objects st') <= length (objects st) + j)%nat)
    n 0%nat st) as (st' & Hloop & Hok' & Hlen').
  - intros j s _ [Hoks Hlens].
    destruct (useSyncPool_step (picks j) s Hoks)
      as (s1 & l & Hcall & Hok1 & Hl & _ & Hlen1 & _).
    rewrite Hcall, bind_Ret. eexists. split; [reflexivity|].
    split; [by apply returnToPool_ok|].
    unfold returnToPool, largeStructPool_Put. destruct (keeps j); cbn [objects]; lia.
  - split; [exact Hok|lia].
  - exists st'. split; [exact Hloop|]. split; [exact Hok'|]. lia.
Qed.

Lemma BenchmarkUseSyncPool_returns_witness :
  pool_ok empty_pool = true /\
  exists st',
    BenchmarkUseSyncPool_loop (fun i => if Nat.even i then Some 0%nat else None)
      (fun i => negb (Nat.eqb i 1)) 4 empty_pool = Ret st' /\
    pool_ok st' = true /\
    (length (objects empty_pool) <= length (objects st')
     <= length (objects empty_pool) + 4)%nat.
Proof.
  split; [reflexivity|].
  apply BenchmarkUseSyncPool_returns. reflexivity.
Defined.

(** X21.  The pool pays off: when it keeps what is handed back and [Get]
    takes a pooled item whenever there is one, any number of rounds of the
    benchmark allocate at most one object in all. *)
Theorem BenchmarkUseSyncPool_recycles (n : nat) (st : pool_state) :
  pool_ok st = true ->
  exists st',
    BenchmarkUseSyncPool_loop (fun _ => Some 0%nat) (fun _ => true) n st = Ret st' /\
    (length (objects st') <= length (objects st) + 1)%nat.
Proof.
  intros Hok. unfold BenchmarkUseSyncPool_loop.
  edestruct (for_range_inv
    (fun st (i : nat) =>
       '(st1, obj) ← useSyncPool (Some 0%nat) st;
       Ret (returnToPool true st1 obj))
    (fun j st' =>
       pool_ok st' = true /\
       ((j = 0%nat /\ st' = st) \/
        (pooled st' <> [] /\
         (length (objects st') <= length (objects st) + 1)%nat)))
    n 0%nat st) as (st' & Hloop & _ & Hcase).
  - intros j s _ [Hoks Hcase].
    destruct (useSyncPool_step (Some 0%nat) s Hoks)
      as (s1 & l & Hcall & Hok1 & Hl & _ & Hlen1 & _ & Hpicked).
    rewrite Hcall, bind_Ret. eexists. split; [reflexivity|].
    split; [by apply returnToPool_ok|]. right.
    unfold returnToPool, largeStructPool_Put. cbn [pooled objects].
    split; [done|].
    destruct Hcase as [[_ ->]|[Hne Hlens]]; [lia|].
    destruct (pooled s) as [|p ps] eqn:Hps; [done|].
    destruct (Hpicked 0%nat p eq_refl eq_refl) as (_ & Hsame & _). lia.
  - split; [exact Hok|]. by left.
  - exists st'. split; [exact Hloop|].
    destruct Hcase as [[_ ->]|[_ Hlen]]; lia.
Qed.

Lemma BenchmarkUseSyncPool_recycles_witness :
  pool_ok empty_pool = true /\
  exists st',
    BenchmarkUseSyncPool_loop (fun _ => Some 0%nat) (fun _ => true) 5 empty_pool
      = Ret st' /\
    (length (objects st') <= length (objects empty_pool) + 1)%nat.
Proof.
  split; [reflexivity|].
  apply BenchmarkUseSyncPool_recycles. reflexivity.
Defined.

(** *** Pre-sizing against growing *)

(** X22.  [preallocatedSlice] allocates exactly once, however [append]
    would grow an array: it returns the heap with one array added, the 100
    squares, and a slice of length and capacity 100 over it. *)
Theorem preallocatedSlice_allocates_once (slack : nat -> nat -> nat) (h : heap Z) :
  preallocatedSlice slack h
  = Ret (h ++ [(fun i : nat => Z.of_nat i * Z.of_nat i) <$> seq 0 100],
         Slice (length h) 0 100 100).
Proof.
  pose (g := fun i : nat => mul64 (Z.of_nat i) (Z.of_nat i)).
  unfold preallocatedSlice.
  rewrite (make_slice_Ret 0 8 h 0 100) by (unfold maxAlloc; lia).
  change (Z.to_nat 100) with 100%nat. change (Z.to_nat 0) with 0%nat.
  rewrite bind_Ret.
  edestruct (for_range_inv
    (fun '(h, result) (i : nat) => Ret (append 0 slack h result [g i]))
    (fun j p =>
       p = (h ++ [(g <$> seq 0 j) ++ replicate (100 - j) 0],
            Slice (length h) 0 j 100))
    100 0%nat (h ++ [replicate 100 0], Slice (length h) 0 0 100))
    as (p & Hloop & Hp).
  - intros j p [_ Hj] ->. rewrite Nat.add_0_l in Hj.
    eexists. split; [reflexivity|].
    assert (Hsq : length (g <$> seq 0 j) = j) by (by rewrite length_fmap, length_seq).
    unfold append. cbn [s_len s_cap s_arr s_off length].
    destruct (Nat.leb_spec (j + 1) 100); [|lia].
    rewrite array_of_app_new, insert_app_r_alt, Nat.sub_diag by lia.
    cbn [insert list_insert]. rewrite Nat.add_0_l.
    replace (j + 1)%nat with (S j) by lia. do 3 f_equal.
    unfold list_write. cbn [length].
    rewrite take_app_length' by done.
    rewrite drop_app_ge, Hsq by lia.
    replace (j + 1 - j)%nat with 1%nat by lia.
    rewrite drop_replicate, seq_S, fmap_app, <- app_assoc. cbn [fmap list_fmap Nat.add app].
    do 3 f_equal. lia.
  - reflexivity.
  - subst g. rewrite Hloop, Hp.
    cbn [Nat.add]. rewrite Nat.sub_diag. cbn [replicate]. rewrite app_nil_r.
    by rewrite squares_no_overflow.
Qed.

(** X23.  [sliceGrowth] never writes to an array that existed before the
    call and allocates at least once: the heap it returns starts with the
    old heap, unchanged, and is longer. *)
Theorem sliceGrowth_leaves_heap (slack : nat -> nat -> nat) (h : heap Z) :
  exists h' r,
    sliceGrowth slack h = Ret (h', r) /\
    take (length h) h' = h /\
    (length h < length h')%nat.
Proof.
  unfold sliceGrowth.
  edestruct (for_range_inv
    (fun '(h, slice) (i : nat) =>
       Ret (append 0 slack h slice [mul64 (Z.of_nat i) (Z.of_nat i)]))
    (fun j p =>
       take (length h) (fst p) = h /\
       ((j = 0%nat /\ p = (h, nil_slice)) \/
        ((length h <= s_arr (snd p))%nat /\ (length h < length (fst p))%nat)))
    100 0%nat (h, nil_slice)) as ([h' r] & Hloop & Htake & Hcase).
  - intros j [h1 s] _ [Htake Hcase]. cbn [fst snd] in *.
    eexists. split; [reflexivity|].
    destruct Hcase as [[_ [= -> ->]]|[Harr Hlen]].
    + unfold append. cbn [nil_slice s_len s_cap s_arr s_off length fst snd Nat.add].
      change (1 <=? 0)%nat with false. cbn iota. cbn [fst snd s_arr].
      split; [by rewrite take_app_length|]. right.
      rewrite length_app. cbn [length]. lia.
    + unfold append. cbn [length].
      destruct (Nat.leb_spec (s_len s + 1) (s_cap s)); cbn [fst snd s_arr].
      * split; [by rewrite take_insert_ge|]. right. rewrite length_insert. lia.
      * split; [rewrite take_app_le by lia; exact Htake|]. right.
        rewrite length_app. cbn [length]. lia.
  - cbn [fst snd]. split; [apply firstn_all|]. by left.
  - cbn [fst snd] in *. exists h', r. split; [exact Hloop|]. split; [exact Htake|].
    destruct Hcase as [[H0 _]|[_ Hlen]]; [discriminate H0|exact Hlen].
Qed.

End KeepOnStackMore.
